(** * A shallow embedding of berbalang's profiler, evaluator and
      tournament-selection loop.

    Sources embedded:
    - [src/src/emulator/profiler.rs]: [Profiler], [Profile], [absorb],
      [collate], [avg_emulation_micros], [addresses_written_to],
      [mem_write_ratio];
    - [src/src/roper/evaluation.rs]: [code_coverage_ff],
      [Evaluator::eval_pipeline];
    - [src/src/examples/hello_world.rs]: [Config], [Genome], [Epoch::evolve],
      [run], the observer [Window].

    Conventions.  A [u64]/[usize] is a [Z] or [nat]; arithmetic that may
    overflow is written with its release-build wrap-around.  [f64] and
    [f32] are IEEE binary64/binary32 as given by the Standard Library's
    [SpecFloat] (NaN is [S754_nan]); [x as f64] rounds to nearest-even
    with [binary_normalize].  A crossbeam [SegQueue] drained with
    [while let Ok(x) = q.pop()] is the list of its elements in push
    order.  A [hashbrown::HashSet<u64>] is a [gset Z]. *)

From Stdlib Require Import ZArith Lia List Permutation QArith Sorted.
From Stdlib Require Import Floats.SpecFloat Ascii String.
From stdpp Require Import base gmap sets list strings.

Open Scope Z_scope.

(* ------------------------------------------------------------------ *)
(** ** Machine floats *)

Module F.
(** [f64] *)
Definition f64 := spec_float.
Definition of_nat (n : nat) : f64 := binary_normalize 53 1024 (Z.of_nat n) 0 false.
Definition of_Z (z : Z) : f64 := binary_normalize 53 1024 z 0 false.
Definition add : f64 -> f64 -> f64 := SFadd 53 1024.
Definition sub : f64 -> f64 -> f64 := SFsub 53 1024.
Definition div : f64 -> f64 -> f64 := SFdiv 53 1024.
Definition ltb : f64 -> f64 -> bool := SFltb.
Definition one : f64 := of_Z 1.
Definition zero : f64 := of_Z 0.
(** [f32] *)
Definition f32 := spec_float.
Definition of_nat32 (n : nat) : f32 := binary_normalize 24 128 (Z.of_nat n) 0 false.
Definition div32 : f32 -> f32 -> f32 := SFdiv 24 128.

Definition is_nan (x : spec_float) : bool :=
  match x with S754_nan => true | _ => false end.
End F.

Definition u64_wrap (z : Z) : Z := z mod 2 ^ 64.

(* ------------------------------------------------------------------ *)
(** ** [src/src/emulator/profiler.rs] *)

Module Profiler.

(** [pub struct Block { entry: u64, size: usize }] *)
Record Block := { entry : Z; size : nat }.

(** [pub struct MemLogEntry] *)
Record MemLogEntry := {
  program_counter : Z;
  address : Z;
  num_bytes_written : nat;
  value : Z
}.

(** [unicorn::Error] is a C-like enum; it is modelled by its code. *)
Definition UCError := N.

(** [std::time::Duration], as a count of nanoseconds. *)
Definition Duration := N.
Definition as_micros (d : Duration) : N := (d / 1000)%N.

Section WithRegisters.
(** The architecture-dependent parts that live outside [profiler.rs]:
    the segment type of the loader, the register map of the run and
    [RegisterState] with its constructor [RegisterState::new]. *)
Context {Seg Registers RegisterState : Type}.
Variable RegisterState_new : Registers -> list Seg -> RegisterState.

(** [pub struct Profiler<C>]; the fields the conversions destructure.
    [registers_to_read] and [input] are skipped with [..] by both
    conversions and are left out. *)
Record Profiler := {
  block_log : list Block;
  gadget_log : list Z;
  written_memory : list Seg;
  write_log : list MemLogEntry;
  cpu_error : option UCError;
  emulation_time : Duration;
  registers : Registers
}.

(** [pub struct Profile] *)
Record Profile := {
  paths : list (list Block);
  cpu_errors : list (option UCError);
  emulation_times : list Duration;
  registers_p : list RegisterState;
  gadgets_executed : list (gset Z);
  writeable_memory : list (list Seg);
  write_logs : list (list MemLogEntry);
  executable : bool
}.

(** [let mut executed = HashSet::new();
     while let Ok(g) = gadget_log.pop() { executed.insert(g); }] *)
Definition drain_gadgets (q : list Z) : gset Z :=
  fold_left (fun acc g => {[ g ]} ∪ acc) q ∅.

(** [impl From<Profiler<C>> for Profile] *)
Definition from_profiler (p : Profiler) : Profile :=
  {| paths := [block_log p];
     cpu_errors := [cpu_error p];
     emulation_times := [emulation_time p];
     registers_p := [RegisterState_new (registers p) (written_memory p)];
     gadgets_executed := [drain_gadgets (gadget_log p)];
     writeable_memory := [];
     write_logs := [write_log p];
     executable := true |}.

(** [Profile::absorb(&mut self, other)] *)
Definition absorb (self other : Profile) : Profile :=
  {| paths := paths self ++ paths other;
     cpu_errors := cpu_errors self ++ cpu_errors other;
     emulation_times := emulation_times self ++ emulation_times other;
     registers_p := registers_p self ++ registers_p other;
     gadgets_executed := gadgets_executed self ++ gadgets_executed other;
     writeable_memory := writeable_memory self ++ writeable_memory other;
     write_logs := write_logs self ++ write_logs other;
     executable := executable self && executable other |}.

(** The accumulators of [Profile::collate]: [paths], [cpu_errors],
    [computation_times], [register_maps], [gadgets_executed],
    [write_logs]. *)
Record CollateAcc := {
  acc_paths : list (list Block);
  acc_cpu_errors : list (option UCError);
  acc_times : list Duration;
  acc_regs : list RegisterState;
  acc_gadgets : list (gset Z);
  acc_write_logs : list (list MemLogEntry)
}.

(** One iteration of the [for Profiler { .. } in profilers] loop. *)
Definition collate_step (a : CollateAcc) (p : Profiler) : CollateAcc :=
  {| acc_paths := acc_paths a ++ [block_log p];
     acc_gadgets := acc_gadgets a ++ [drain_gadgets (gadget_log p)];
     acc_cpu_errors := acc_cpu_errors a ++ [cpu_error p];
     acc_times := acc_times a ++ [emulation_time p];
     acc_regs := acc_regs a ++ [RegisterState_new (registers p) (written_memory p)];
     acc_write_logs := acc_write_logs a ++ [write_log p] |}.

(** [Profile::collate(profilers)] *)
Definition collate (profilers : list Profiler) : Profile :=
  let a := fold_left collate_step profilers
             {| acc_paths := []; acc_cpu_errors := []; acc_times := [];
                acc_regs := []; acc_gadgets := []; acc_write_logs := [] |} in
  {| paths := acc_paths a;
     cpu_errors := acc_cpu_errors a;
     emulation_times := acc_times a;
     gadgets_executed := acc_gadgets a;
     registers_p := acc_regs a;
     writeable_memory := [];
     write_logs := acc_write_logs a;
     executable := true |}.

Definition acc0 : CollateAcc :=
  {| acc_paths := []; acc_cpu_errors := []; acc_times := [];
     acc_regs := []; acc_gadgets := []; acc_write_logs := [] |}.

(** The profile the body of [collate] builds from an accumulator. *)
Definition profile_of (a : CollateAcc) : Profile :=
  {| paths := acc_paths a; cpu_errors := acc_cpu_errors a;
     emulation_times := acc_times a; gadgets_executed := acc_gadgets a;
     registers_p := acc_regs a; writeable_memory := [];
     write_logs := acc_write_logs a; executable := true |}.

Definition acc_app (a b : CollateAcc) : CollateAcc :=
  {| acc_paths := acc_paths a ++ acc_paths b;
     acc_cpu_errors := acc_cpu_errors a ++ acc_cpu_errors b;
     acc_times := acc_times a ++ acc_times b;
     acc_regs := acc_regs a ++ acc_regs b;
     acc_gadgets := acc_gadgets a ++ acc_gadgets b;
     acc_write_logs := acc_write_logs a ++ acc_write_logs b |}.

(** [Profile::avg_emulation_micros]:
    [self.emulation_times.iter().sum::<Duration>().as_micros() as f64
       / self.emulation_times.len() as f64] *)
Definition avg_emulation_micros (self : Profile) : F.f64 :=
  F.div (F.of_Z (Z.of_N (as_micros (fold_left N.add (emulation_times self) 0%N))))
        (F.of_nat (length (emulation_times self))).

(** [Profile::addresses_written_to]: for every entry of the flattened
    write logs, [for i in 0..entry.num_bytes_written
    { set.insert(entry.address + i as u64) }]. *)
Definition insert_entry (set : gset Z) (e : MemLogEntry) : gset Z :=
  fold_left (fun s i => {[ u64_wrap (address e + Z.of_nat i) ]} ∪ s)
            (seq 0 (num_bytes_written e)) set.

Definition addresses_written_to (self : Profile) : gset Z :=
  fold_left insert_entry (concat (write_logs self)) ∅.

(** [Profile::mem_write_ratio]; [size_of_writeable] is
    [get_static_memory_image().size_of_writeable_memory()]. *)
Definition mem_write_ratio (size_of_writeable : nat) (self : Profile) : F.f64 :=
  F.div (F.of_nat (stdpp.base.size (addresses_written_to self))) (F.of_nat size_of_writeable).

(** [Profile::was_this_written(&self, w)]: the entries of the flattened
    write logs whose [value] is [w], in order. *)
Definition was_this_written (self : Profile) (w : Z) : list MemLogEntry :=
  List.filter (fun entry => Z.eqb (value entry) w) (concat (write_logs self)).

(** The loop of [Profile::was_this_executed]:
    [for gads in self.gadgets_executed.iter() { if gads.contains(&w)
      { return true; } } false] *)
Fixpoint executed_in (gs : list (gset Z)) (w : Z) : bool :=
  match gs with
  | [] => false
  | gads :: gs' => if bool_decide (w ∈ gads) then true else executed_in gs' w
  end.

Definition was_this_executed (self : Profile) (w : Z) : bool :=
  executed_in (gadgets_executed self) w.

End WithRegisters.

Arguments Profile : clear implicits.
Arguments Profiler : clear implicits.

End Profiler.

(* ------------------------------------------------------------------ *)
(** ** The register map of [Profiler<C>] *)

Module ProfilerRegisters.

Section Registers.
(** [Register<C>], hashable, and [emu.reg_read(r)]: [None] is the [Err]
    that [.expect("Failed to read register!")] turns into a panic. *)
Context {Register : Type} `{Countable Register}.
Variable reg_read : Register -> option Z.

(** [Profiler::read_registers(&mut self, emu)]:
    [for r in &self.registers_to_read { let val = emu.reg_read( *r)
      .expect(..); self.registers.insert( *r, val); }] *)
Fixpoint read_registers (registers_to_read : list Register) (registers : gmap Register Z)
  : option (gmap Register Z) :=
  match registers_to_read with
  | [] => Some registers
  | r :: rs => match reg_read r with
               | None => None
               | Some val => read_registers rs (<[r := val]> registers)
               end
  end.
End Registers.

(** [Profiler::register(&self, reg)]: [self.registers.get(&reg).cloned()] *)
Definition register {Register : Type} `{Countable Register}
  (registers : gmap Register Z) (reg : Register) : option Z :=
  registers !! reg.

End ProfilerRegisters.

(* ------------------------------------------------------------------ *)
(** ** [src/src/roper/evaluation.rs] *)

Module Roper.
Import Profiler.

(** [crate::fitness::Weighted]: the weight table it is built with and the
    raw per-objective scores, keyed by objective name
    ([Weighted::new(weights)] starts with no scores). *)
Record Weighted (Weights : Type) := {
  weights : Weights;
  scores : gmap string F.f64
}.
Arguments weights {Weights}.
Arguments scores {Weights}.

Definition Weighted_new {Weights} (w : Weights) : Weighted Weights :=
  {| weights := w; scores := ∅ |}.

Definition Weighted_insert {Weights} (k : string) (v : F.f64) (f : Weighted Weights)
  : Weighted Weights :=
  {| weights := weights f; scores := <[k := v]> (scores f) |}.

(** What the fitness functions read from their environment:
    [config.fitness.weights], and the sizes of the executable and
    writeable memory of [get_static_memory_image()]. *)
Record Env (Weights : Type) := {
  fitness_weights : Weights;
  size_of_executable_memory : nat;
  size_of_writeable_memory : nat
}.
Arguments fitness_weights {Weights}.
Arguments size_of_executable_memory {Weights}.
Arguments size_of_writeable_memory {Weights}.

Section Evaluation.
Context {Seg RegisterState Genes Weights : Type}.

(** [Creature] ([crate::roper::Creature]): the fields [evaluation.rs]
    reads or writes -- its genetic payload, the cached profile, the
    cached fitness and the tag. *)
Record Creature := {
  chromosome : Genes;
  profile : option (Profile Seg RegisterState);
  fitness : option (Weighted Weights);
  tag : Z
}.

Definition set_profile (c : Creature) (p : Profile Seg RegisterState) : Creature :=
  {| chromosome := chromosome c; profile := Some p; fitness := fitness c; tag := tag c |}.

Definition set_fitness (c : Creature) (f : Weighted Weights) : Creature :=
  {| chromosome := chromosome c; profile := profile c; fitness := Some f; tag := tag c |}.

(** The Frequency Sketch ([util::count_min_sketch::CountMinSketch],
    not under src/): its state type, [insert] and [query]. *)
Context {Sketch : Type}.
Variable sketch_insert : Z -> Sketch -> Sketch.
Variable sketch_query : Z -> Sketch -> F.f64.

Variable env : Env Weights.

(** [for addr in block.entry..(block.entry + block.size as u64)] *)
Definition block_addresses (b : Block) : list Z :=
  let stop := u64_wrap (entry b + Z.of_nat (size b)) in
  map (fun k => entry b + Z.of_nat k) (seq 0 (Z.to_nat (stop - entry b))).

(** [addresses_visited] of [code_coverage_ff]. *)
Definition addresses_visited (prof : Profile Seg RegisterState) : gset Z :=
  fold_left (fun set path =>
               fold_left (fun set b =>
                            fold_left (fun set a => {[ a ]} ∪ set) (block_addresses b) set)
                         path set)
            (paths prof) ∅.

(** [for addr in addresses_visited.iter() { sketch.insert( *addr);
      freq_score += sketch.query( *addr); }]; the set is iterated in
    the order of [elements]. *)
Definition insert_and_query (visited : gset Z) (sk : Sketch) : Sketch * F.f64 :=
  fold_left (fun '(s, f) a => let s' := sketch_insert a s in (s', F.add f (sketch_query a s')))
            (elements visited) (sk, F.zero).

(** [code_coverage_ff(creature, sketch, config)]; the fitness function
    returns the creature and leaves the sketch it mutated. *)
Definition code_coverage_ff (creature : Creature) (sk : Sketch) : Creature * Sketch :=
  match profile creature with
  | None => (creature, sk)
  | Some prof =>
      let visited := addresses_visited prof in
      let '(sk', freq_score) := insert_and_query visited sk in
      let num_addr_visit := F.of_nat (stdpp.base.size visited) in
      let avg_freq := if F.ltb num_addr_visit F.one then F.one
                      else F.div freq_score num_addr_visit in
      let code_size := size_of_executable_memory env in
      let code_coverage := F.sub F.one (F.div num_addr_visit (F.of_nat code_size)) in
      let fit := Weighted_new (fitness_weights env) in
      let fit := Weighted_insert "code_coverage" code_coverage fit in
      let fit := Weighted_insert "code_frequency" avg_freq fit in
      let fit := Weighted_insert "gadgets_executed"
                   (F.of_nat (length (gadgets_executed prof))) fit in
      let fit := Weighted_insert "mem_ratio_written"
                   (F.sub F.one (mem_write_ratio (size_of_writeable_memory env) prof)) fit in
      (set_fitness creature fit, sk')
  end.

(** [pub struct Evaluator<C>]: the sketch it owns, and the batches it
    has handed to its [hatchery] (the execution collaborator), oldest
    first. *)
Record Evaluator := {
  sketch : Sketch;
  submitted : list (list Creature)
}.

(** The execution collaborator, [Hatchery::execute_batch]: [None] is
    the [Err] that [.expect("execute batch failure")] turns into a
    panic. *)
Variable execute_batch : list Creature -> option (list (Creature * Profile Seg RegisterState)).
(** [Creature::record_genetic_frequency(&mut sketch)]. *)
Variable record_genetic_frequency : Creature -> Sketch -> Sketch.
(** The boxed [fitness_fn] chosen at [Evaluator::spawn]. *)
Variable fitness_fn : Creature -> Sketch -> Creature * Sketch.

(** [.map(|creature| (self.fitness_fn)(creature, &mut self.sketch, ..))
      .collect()]: the iterator is consumed in order, threading the
    sketch. *)
Fixpoint score_all (cs : list Creature) (sk : Sketch) : list Creature * Sketch :=
  match cs with
  | [] => ([], sk)
  | c :: cs' =>
      let '(c', sk1) := fitness_fn c sk in
      let '(rest, sk2) := score_all cs' sk1 in
      (c' :: rest, sk2)
  end.

Definition has_profile (c : Creature) : bool :=
  match profile c with Some _ => true | None => false end.

(** [Evaluator::eval_pipeline(&mut self, inbound)] *)
Definition eval_pipeline (self : Evaluator) (inbound : list Creature)
  : option (list Creature * Evaluator) :=
  let old_meat := List.filter has_profile inbound in
  let fresh_meat := List.filter (fun c => negb (has_profile c)) inbound in
  match execute_batch fresh_meat with
  | None => None
  | Some results =>
      let profiled := map (fun '(c, p) => set_profile c p) results in
      let '(batch, sk1) := score_all (profiled ++ old_meat) (sketch self) in
      let sk2 := fold_left (fun s c => record_genetic_frequency c s) batch sk1 in
      Some (batch, {| sketch := sk2; submitted := submitted self ++ [fresh_meat] |})
  end.
End Evaluation.

Arguments Creature : clear implicits.
Arguments Evaluator : clear implicits.

(** Modelled from the spec: [CountMinSketch] (src/util/count_min_sketch.rs,
    not under src/), an approximate counter that never undercounts; here
    the collision-free instance, an exact count per address. *)
Definition ExactSketch := gmap Z nat.
Definition exact_insert (a : Z) (s : ExactSketch) : ExactSketch :=
  <[a := S (default 0%nat (s !! a))]> s.
Definition exact_query (a : Z) (s : ExactSketch) : F.f64 :=
  F.of_nat (default 0%nat (s !! a)).

(** Modelled from the spec: [Creature::record_genetic_frequency] (not
    under src/), "update the Frequency Sketch with each candidate's
    visited addresses". *)
Definition spec_record_frequency {Seg RegisterState Genes Weights}
  (c : Creature Seg RegisterState Genes Weights) (s : ExactSketch) : ExactSketch :=
  match profile c with
  | None => s
  | Some p => fold_left (fun s a => exact_insert a s) (elements (addresses_visited p)) s
  end.

End Roper.

(* ------------------------------------------------------------------ *)
(** ** [src/src/examples/hello_world.rs] *)

Module HelloWorld.

(** [pub struct Config]; [mut_rate: f32] is kept as its exact rational
    value (a comparison of two finite floats is the comparison of their
    values), [target: String] as its characters, [observer.window_size]
    inlined. *)
Record Config := {
  mut_rate : Q;
  init_len : nat;
  pop_size : nat;
  tournament_size : nat;
  num_offspring : nat;
  target : list ascii;
  window_size : nat
}.

(** [pub type Fitness = usize] *)
Definition Fitness := nat.

(** [pub struct Genome { genes: String, fitness: Option<Fitness> }] *)
Record Genome := { genes : list ascii; fitness : option Fitness }.

(** [pub struct Epoch] *)
Record Epoch := {
  population : list Genome;
  config : Config;
  best : option Genome;
  iteration : nat
}.

(** The state the generation loop threads: the thread-local RNG, the
    log records emitted through [log::error!]/[log::info!], and the
    genomes sent to the observer, oldest first. *)
Record St (R : Type) := { rng : R; log : list string; observed : list Genome }.
Arguments rng {R}.
Arguments log {R}.
Arguments observed {R}.

(** A computation either finishes with a value or panics; either way the
    state reached so far (its log) is kept. *)
Inductive outcome (R A : Type) :=
| Done (a : A) (s : St R)
| Panic (msg : string) (s : St R).
Arguments Done {R A}.
Arguments Panic {R A}.

Definition M (R A : Type) := St R -> outcome R A.

Definition ret {R A} (a : A) : M R A := fun s => Done a s.
Definition bind {R A B} (m : M R A) (k : A -> M R B) : M R B :=
  fun s => match m s with Done a s' => k a s' | Panic e s' => Panic e s' end.
Definition panic {R A} (msg : string) : M R A := fun s => Panic msg s.

Notation "'let!' x := m 'in' k" := (bind m (fun x => k))
  (at level 200, x pattern, m at level 100, k at level 200).

Definition log_msg {R} (msg : string) : M R unit :=
  fun s => Done tt {| rng := rng s; log := log s ++ [msg]; observed := observed s |}.
Definition observe {R} (g : Genome) : M R unit :=
  fun s => Done tt {| rng := rng s; log := log s; observed := observed s ++ [g] |}.
Definition with_rng {R A} (f : R -> A * R) : M R A :=
  fun s => Done (fst (f (rng s))) {| rng := snd (f (rng s)); log := log s; observed := observed s |}.

(** [Option::unwrap] *)
Definition unwrap {R A} (o : option A) : M R A :=
  match o with
  | Some a => ret a
  | None => panic "called `Option::unwrap()` on a `None` value"
  end.

(** [Vec::pop]: removes the last element. *)
Fixpoint vec_pop {A} (l : list A) : option (list A * A) :=
  match l with
  | [] => None
  | [x] => Some ([], x)
  | x :: l' => match vec_pop l' with
               | Some (r, y) => Some (x :: r, y)
               | None => None
               end
  end.

(** [usize] subtraction as a release build computes it. *)
Definition usize_wrapping_sub (a b : nat) : Z := (Z.of_nat a - Z.of_nat b) mod 2 ^ 64.

(** [usize] addition as a release build computes it. *)
Definition usize_wrapping_add (a b : nat) : nat := Z.to_nat ((Z.of_nat a + Z.of_nat b) mod 2 ^ 64).

(** [impl Config { fn assert_invariants }] *)
Definition assert_invariants {R} (cfg : Config) : M R unit :=
  if Nat.leb (num_offspring cfg + 2) (tournament_size cfg) then ret tt
  else panic "assertion failed: self.tournament_size >= self.num_offspring + 2".

Section Loop.
(** The thread-local RNG, read through the draws the code makes:
    [rng.gen::<usize>()], [rng.gen::<f32>()] (in [0,1)),
    [rng.sample(Alphanumeric)], [population.shuffle(&mut rng)], and the
    printable byte on which the rejection loop of [mutate]
    ([while c < 0x20 || 0x7E < c { c = rng.gen::<u8>() }]) settles. *)
Context {R : Type}.
Variable gen_usize : R -> nat * R.
Variable gen_f32 : R -> Q * R.
Variable sample_alphanumeric : R -> ascii * R.
Variable gen_printable : R -> ascii * R.
Variable shuffle : list Genome -> R -> list Genome * R.
(** [distance::levenshtein], from the [distance] crate. *)
Variable levenshtein : list ascii -> list ascii -> nat.

(** [Genome::new(len)] *)
Fixpoint sample_genes (len : nat) : M R (list ascii) :=
  match len with
  | O => ret []
  | S n => let! c := with_rng sample_alphanumeric in
           let! rest := sample_genes n in
           ret (c :: rest)
  end.

Definition Genome_new (len : nat) : M R Genome :=
  let! s := sample_genes len in ret {| genes := s; fitness := None |}.

(** [rng.gen::<usize>() % n]: a remainder by zero panics. *)
Definition gen_index (n : nat) : M R nat :=
  let! r := with_rng gen_usize in
  if Nat.eqb n 0 then panic "attempt to calculate the remainder with a divisor of zero"
  else ret (Nat.modulo r n).

(** [impl Genotype for Genome { fn crossover }]; [split_at] of an ASCII
    string is [take]/[drop]. *)
Definition crossover (self mate : Genome) : M R (list Genome) :=
  let! split_m := gen_index (length (genes self)) in
  let! split_f := gen_index (length (genes mate)) in
  let m1 := take split_m (genes self) in let m2 := drop split_m (genes self) in
  let f1 := take split_f (genes mate) in let f2 := drop split_f (genes mate) in
  ret [ {| genes := m1 ++ f2; fitness := None |};
        {| genes := m2 ++ f1; fitness := None |} ].

(** [fn mutate(&mut self)]: [bytes[i] = c]. *)
Definition mutate (g : Genome) : M R Genome :=
  let! i := gen_index (length (genes g)) in
  let! c := with_rng gen_printable in
  ret {| genes := <[i := c]> (genes g); fitness := fitness g |}.

(** [for child in offspring.iter_mut() { if rng.gen::<f32>() < mut_rate
      { child.mutate() } }] *)
Fixpoint mutate_each (mut_rate : Q) (cs : list Genome) : M R (list Genome) :=
  match cs with
  | [] => ret []
  | c :: cs' =>
      let! u := with_rng gen_f32 in
      let! c' := (if negb (Qle_bool mut_rate u) then mutate c else ret c) in
      let! rest := mutate_each mut_rate cs' in
      ret (c' :: rest)
  end.

(** [Genome::mate(&self, other, params)] *)
Definition mate (self other : Genome) (params : Config) : M R (list Genome) :=
  let! offspring := crossover self other in
  mutate_each (mut_rate params) offspring.

(** [Genome::fitter_than] *)
Definition fitter_than (self other : Genome) : bool :=
  match fitness self, fitness other with
  | Some a, Some b => Nat.ltb a b
  | _, _ => false
  end.

(** [Epoch::update_best]: the new value of [self.best]. *)
Definition update_best (best : option Genome) (champ : Genome) : M R (option Genome) :=
  match best with
  | Some b => if fitter_than champ b
              then let! _ := log_msg "new champ" in ret (Some champ)
              else ret best
  | None => let! _ := log_msg "new champ" in ret (Some champ)
  end.

(** The evaluator thread of [mod evaluation]: [if genome.fitness.is_none()
    { genome.fitness = Some(levenshtein(&genome.genes, &target)) }]. *)
Definition evaluate (tgt : list ascii) (g : Genome) : Genome :=
  match fitness g with
  | Some _ => g
  | None => {| genes := genes g; fitness := Some (levenshtein (genes g) tgt) |}
  end.

(** [for _ in 0..tournament_size { if let Some(combatant) =
      population.pop() { .. combatants.push(scored) } else
      { log::error!("Population empty!") } }]; returns the population
    left and the combatants. *)
Fixpoint draw_combatants (tgt : list ascii) (n : nat) (pop acc : list Genome)
  : M R (list Genome * list Genome) :=
  match n with
  | O => ret (pop, acc)
  | S n' =>
      match vec_pop pop with
      | Some (pop', c) =>
          let scored := evaluate tgt c in
          let! _ := observe scored in
          draw_combatants tgt n' pop' (acc ++ [scored])
      | None =>
          let! _ := log_msg "Population empty!" in
          draw_combatants tgt n' pop acc
      end
  end.

(** [combatants.sort_by(|a, b| a.fitness.cmp(&b.fitness))]: a stable
    sort on [Option<usize>], where [None] is least. *)
Definition fit_le (a b : option Fitness) : bool :=
  match a, b with
  | None, _ => true
  | Some _, None => false
  | Some x, Some y => Nat.leb x y
  end.

Fixpoint insert_sorted (g : Genome) (l : list Genome) : list Genome :=
  match l with
  | [] => [g]
  | h :: t => if fit_le (fitness h) (fitness g) then h :: insert_sorted g t else g :: l
  end.

Definition sort_by_fitness (l : list Genome) : list Genome :=
  fold_left (fun acc g => insert_sorted g acc) l [].

(** [for _ in 0..n { let _ = combatants.pop(); }] *)
Fixpoint pop_n {A} (n : nat) (l : list A) : list A :=
  match n with
  | O => l
  | S n' => match vec_pop l with Some (l', _) => pop_n n' l' | None => pop_n n' l end
  end.

(** [for _ in 0..bystanders { if let Some(c) = combatants.pop()
      { population.push(c) } }]: [fuel] is the number of combatants,
    the iterations after the combatants run out do nothing. *)
Fixpoint requeue (fuel : nat) (n : Z) (cs pop : list Genome) : list Genome * list Genome :=
  match fuel with
  | O => (cs, pop)
  | S f => if Z.leb n 0 then (cs, pop)
           else match vec_pop cs with
                | Some (cs', c) => requeue f (n - 1) cs' (pop ++ [c])
                | None => (cs, pop)
                end
  end.

(** [impl Epochal for Epoch { fn evolve }] *)
Definition evolve (self : Epoch) : M R Epoch :=
  let cfg := config self in
  let ts := tournament_size cfg in
  let! pop := with_rng (shuffle (population self)) in
  let! drawn := draw_combatants (target cfg) ts pop [] in
  let '(pop, combatants) := drawn in
  let combatants := sort_by_fitness combatants in
  let! best' := (match combatants with
                 | [] => panic "index out of bounds: the len is 0 but the index is 0"
                 | c0 :: _ => update_best (best self) c0
                 end) in
  let combatants := pop_n (num_offspring cfg) combatants in
  let bystanders := usize_wrapping_sub ts (num_offspring cfg + 2) in
  let '(combatants, pop) := requeue (length combatants) bystanders combatants pop in
  let! m := unwrap (vec_pop combatants) in
  let '(combatants, mother) := m in
  let! f := unwrap (vec_pop combatants) in
  let '(_, father) := f in
  let! offspring := mate mother father cfg in
  ret {| population := pop ++ [mother; father] ++ offspring;
         config := cfg; best := best'; iteration := usize_wrapping_add (iteration self) 1 |}.

(** [Epoch::new(config)] *)
Fixpoint sample_population (n len : nat) : M R (list Genome) :=
  match n with
  | O => ret []
  | S n' => let! g := Genome_new len in
            let! rest := sample_population n' len in
            ret (g :: rest)
  end.

Definition Epoch_new (cfg : Config) : M R Epoch :=
  let! pop := sample_population (pop_size cfg) (init_len cfg) in
  ret {| population := pop; config := cfg; best := None; iteration := 0 |}.

(** [pub fn run(config)], unrolled for [gens] generations: [Some champ]
    is the loop's return, [None] that it is still running.  The
    observer and evaluator threads are spawned without checks on the
    main thread ([Window::new]'s [assert!(window_size > 0)] runs on the
    observer thread). *)
Fixpoint run_loop (gens : nat) (world : Epoch) : M R (option Genome) :=
  match gens with
  | O => ret None
  | S g =>
      let! world := evolve world in
      match best world with
      | Some champ => match fitness champ with
                      | Some 0%nat => ret (Some champ)
                      | _ => run_loop g world
                      end
      | None => run_loop g world
      end
  end.

Definition run (gens : nat) (cfg : Config) : M R (option Genome) :=
  let! world := Epoch_new cfg in
  run_loop gens world.

(** What a cached [fitness] can hold: nothing yet, or the Levenshtein
    distance of the genes to the target (the only value the evaluator
    thread ever stores). *)
Definition score_valid (tgt : list ascii) (g : Genome) : Prop :=
  fitness g = None \/ fitness g = Some (levenshtein (genes g) tgt).

(** Every cached score of an [Epoch] is valid for its target, and the
    champion it keeps has been scored. *)
Definition epoch_scores_valid (e : Epoch) : Prop :=
  Forall (score_valid (target (config e))) (population e)
  /\ (forall b, best e = Some b -> fitness b = Some (levenshtein (genes b) (target (config e)))).
End Loop.

(** The observer's [struct Window]. *)
Record Window := { frame : list (option Genome); wi : nat; wsize : nat }.

(** [Window::report]: the average it logs,
    [fitnesses.iter().sum::<usize>() as f32 / fitnesses.len() as f32]. *)
Definition report (w : Window) : F.f32 :=
  let fitnesses := omap (fun t => match t with Some x => fitness x | None => None end) (frame w) in
  F.div32 (F.of_nat32 (Z.to_nat (u64_wrap (Z.of_nat (sum_list fitnesses)))))
          (F.of_nat32 (length fitnesses)).

(** [Window::insert]: the new window, and the average reported when the
    index wraps to zero. *)
Definition window_insert (w : Window) (thing : Genome) : option (Window * option F.f32) :=
  if Nat.eqb (wsize w) 0 then None
  else
    let i := ((wi w + 1) mod wsize w)%nat in
    let w' := {| frame := <[i := Some thing]> (frame w); wi := i; wsize := wsize w |} in
    Some (w', if Nat.eqb i 0 then Some (report w') else None).

(** [Window::new(window_size)]: [assert!(window_size > 0)], [None] being
    the failed assertion. *)
Definition Window_new (window_size : nat) : option Window :=
  if Nat.eqb window_size 0 then None
  else Some {| frame := repeat None window_size; wi := 0; wsize := window_size |}.

(** The observer thread: [for observable in rx { window.insert(observable) }];
    the window reached and the averages [report] logged, in order. *)
Fixpoint observer_loop (w : Window) (rx : list Genome) : option (Window * list F.f32) :=
  match rx with
  | [] => Some (w, [])
  | thing :: rx' =>
      match window_insert w thing with
      | None => None
      | Some (w1, r) =>
          match observer_loop w1 rx' with
          | None => None
          | Some (w2, rs) => Some (w2, option_list r ++ rs)
          end
      end
  end.

End HelloWorld.

(* ------------------------------------------------------------------ *)
(** ** Concrete instances for evaluation *)

Module ConcreteHW.
Import HelloWorld.

(** A classic two-row Levenshtein distance, standing for
    [distance::levenshtein]. *)
Fixpoint next_row (c : ascii) (t : list ascii) (prev : list nat) (left : nat) : list nat :=
  match t, prev with
  | tc :: t', p0 :: ((p1 :: _) as prev') =>
      let v := Nat.min (Nat.min (S p1) (S left))
                       (p0 + (if ascii_dec c tc then 0 else 1))%nat in
      v :: next_row c t' prev' v
  | _, _ => []
  end.

Definition levenshtein (s t : list ascii) : nat :=
  let '(_, row) := fold_left (fun '(i, row) c => (S i, S i :: next_row c t row (S i)))
                             s (0%nat, seq 0 (S (length t))) in
  default 0%nat (last row).

(** A deterministic RNG whose state is a counter. *)
Definition CRng := nat.
Definition c_gen_usize (r : CRng) : nat * CRng := (r, S r).
Definition c_gen_f32 (r : CRng) : Q * CRng := ((1 # 2)%Q, S r).
Definition c_alnum (r : CRng) : ascii * CRng := ("a"%char, S r).
Definition c_printable (r : CRng) : ascii * CRng := ("A"%char, S r).
Definition c_shuffle (l : list Genome) (r : CRng) : list Genome * CRng := (l, S r).

Definition c_evolve := evolve c_gen_usize c_gen_f32 c_printable c_shuffle levenshtein.
Definition c_run := run c_gen_usize c_gen_f32 c_alnum c_printable c_shuffle levenshtein.

Definition st0 : St CRng := {| rng := 0%nat; log := []; observed := [] |}.

Definition cfg (ts no : nat) : Config :=
  {| mut_rate := (1 # 10)%Q; init_len := 5; pop_size := 20; tournament_size := ts;
     num_offspring := no; target := list_ascii_of_string "HELLO"; window_size := 10 |}.

Definition g (s : string) : Genome := {| genes := list_ascii_of_string s; fitness := None |}.

Definition epoch (ts no : nat) (pop : list Genome) : Epoch :=
  {| population := pop; config := cfg ts no; best := None; iteration := 0 |}.

(** Populations for the concrete runs. *)
Definition pop5 : list Genome := [g "HELxO"; g "abcde"; g "HELLO"; g "xyzzy"; g "HELLx"].

(** A configuration whose target the sampled genomes already match. *)
Definition cfg_aaaaa : Config :=
  {| mut_rate := (1 # 10)%Q; init_len := 5; pop_size := 20; tournament_size := 5;
     num_offspring := 2; target := list_ascii_of_string "aaaaa"; window_size := 10 |}.

Definition outcome_pop_len {R A} (o : outcome R A) (f : A -> nat) : option nat :=
  match o with Done a _ => Some (f a) | Panic _ _ => None end.

Definition is_panic {R A} (o : outcome R A) : bool :=
  match o with Done _ _ => false | Panic _ _ => true end.

End ConcreteHW.

Module ConcreteRoper.
Import Profiler Roper.

(** Profiles and creatures over trivial register and segment types. *)
Definition UProfile := Profile unit unit.
Definition UCreature := Creature unit unit unit unit.

Definition mk_profile (ps : list (list Block)) (ws : list (list MemLogEntry)) : UProfile :=
  {| paths := ps; cpu_errors := map (fun _ => None) ps;
     emulation_times := map (fun _ => 0%N) ps; registers_p := map (fun _ => tt) ps;
     gadgets_executed := map (fun _ => ∅) ps; writeable_memory := [];
     write_logs := ws; executable := true |}.

Definition env0 : Env unit :=
  {| fitness_weights := tt; size_of_executable_memory := 100;
     size_of_writeable_memory := 100 |}.

Definition creature (p : option UProfile) (f : option (Weighted unit)) : UCreature :=
  {| chromosome := tt; profile := p; fitness := f; tag := 0 |}.

Definition c_ff := @code_coverage_ff unit unit unit unit ExactSketch exact_insert exact_query env0.

Definition c_pipeline (exec : list UCreature -> option (list (UCreature * UProfile))) :=
  eval_pipeline exec spec_record_frequency c_ff.

Definition score_of (c : UCreature) (k : string) : option F.f64 :=
  fitness c ≫= fun f => scores f !! k.


Definition P0 : UProfile := mk_profile [] [].
Definition P1 : UProfile := mk_profile [[{| entry := 0; size := 1 |}]] [[]].
Definition fresh_c : UCreature := creature None None.
Definition old_c (p : UProfile) : UCreature := creature (Some p) None.

(** An execution collaborator that runs every candidate to profile [p]. *)
Definition exec_all (p : UProfile) (l : list UCreature) : option (list (UCreature * UProfile)) :=
  Some (map (fun c => (c, p)) l).

Definition ev0 : Evaluator unit unit unit unit ExactSketch := {| sketch := ∅; submitted := [] |}.

(** A fitness function and a sketch update that only count their calls. *)
Definition count_ff (c : UCreature) (s : nat) : UCreature * nat := (c, S s).
Definition count_record (c : UCreature) (s : nat) : nat := (s + 10)%nat.
Definition count_ev0 : Evaluator unit unit unit unit nat := {| sketch := 0%nat; submitted := [] |}.

Definition count_result :=
  Eval vm_compute in
    match eval_pipeline (exec_all P0) count_record count_ff count_ev0 [fresh_c; old_c P0] with
    | Some r => r
    | None => ([], count_ev0)
    end.

Definition coverage_result :=
  Eval vm_compute in
    match c_pipeline (exec_all P1) ev0 [fresh_c; old_c P1] with
    | Some r => r
    | None => ([], ev0)
    end.

End ConcreteRoper.

(* ================================================================== *)
(** * Properties *)

(* ------------------------------------------------------------------ *)
(** ** Profile aggregation *)

Module ProfilerFacts.
Import Profiler.

Section Collate.
Context {Seg Registers RegisterState : Type}.
Variable RegisterState_new : Registers -> list Seg -> RegisterState.

Abbreviation Profiler := (Profiler Seg Registers).
Abbreviation Profile := (Profile Seg RegisterState).
Abbreviation from := (from_profiler RegisterState_new).
Abbreviation collate := (collate RegisterState_new).
Abbreviation step := (collate_step RegisterState_new).

Lemma collate_unfold (l : list Profiler) :
  collate l = profile_of (fold_left step l acc0).
Proof. reflexivity. Qed.

Lemma profile_of_step (a : @CollateAcc RegisterState) (r : Profiler) :
  profile_of (step a r) = absorb (profile_of a) (from r).
Proof. reflexivity. Qed.

Lemma fold_step_absorb (rs : list Profiler) (a : @CollateAcc RegisterState) :
  profile_of (fold_left step rs a)
  = fold_left (fun p r => absorb p (from r)) rs (profile_of a).
Proof.
  revert a; induction rs as [|r rs IH]; intros a; [reflexivity|].
  simpl. rewrite IH, profile_of_step. reflexivity.
Qed.

Lemma fold_step_split (l : list Profiler) (a : @CollateAcc RegisterState) :
  fold_left step l a = acc_app a (fold_left step l acc0).
Proof.
  revert a; induction l as [|x l IH]; intros a.
  - destruct a; unfold acc_app; simpl; rewrite !app_nil_r; reflexivity.
  - simpl. rewrite (IH (step a x)), (IH (step acc0 x)).
    destruct a; unfold acc_app, step, collate_step; simpl.
    rewrite <- !app_assoc. reflexivity.
Qed.

Lemma collate_app (xs ys : list Profiler) :
  collate (xs ++ ys) = absorb (collate xs) (collate ys).
Proof.
  rewrite !collate_unfold, fold_left_app, fold_step_split.
  reflexivity.
Qed.

Lemma absorb_assoc (p q r : Profile) :
  absorb p (absorb q r) = absorb (absorb p q) r.
Proof.
  destruct p, q, r; unfold absorb; simpl.
  rewrite !app_assoc, andb_assoc. reflexivity.
Qed.

(** C2: [collate] over a list of run records equals starting from the
    single-run profile of the first record and absorbing the single-run
    profile of each further record in list order, field by field. *)
Theorem collate_eq_absorb_fold (r : Profiler) (rs : list Profiler) :
  collate (r :: rs) = fold_left (fun p x => absorb p (from x)) rs (from r).
Proof.
  rewrite collate_unfold. simpl.
  rewrite fold_step_absorb. reflexivity.
Qed.

(** C3: absorbing the collation of [xs ++ ys] into [p] equals absorbing
    the collation of [xs] and then that of [ys]; each per-run field of
    [absorb] is the concatenation of the operands' fields in order, and
    its [executable] flag is the conjunction of theirs. *)
Theorem absorb_collate_app (p : Profile) (xs ys : list Profiler) :
  absorb p (collate (xs ++ ys)) = absorb (absorb p (collate xs)) (collate ys)
  /\ (forall q r : Profile,
        paths (absorb q r) = paths q ++ paths r
        /\ cpu_errors (absorb q r) = cpu_errors q ++ cpu_errors r
        /\ emulation_times (absorb q r) = emulation_times q ++ emulation_times r
        /\ registers_p (absorb q r) = registers_p q ++ registers_p r
        /\ gadgets_executed (absorb q r) = gadgets_executed q ++ gadgets_executed r
        /\ write_logs (absorb q r) = write_logs q ++ write_logs r
        /\ executable (absorb q r) = executable q && executable r).
Proof.
  split.
  - rewrite collate_app. apply absorb_assoc.
  - intros q r. repeat split.
Qed.

End Collate.
End ProfilerFacts.

(* ------------------------------------------------------------------ *)
(** ** Written addresses and the write ratio *)

Module WriteRatio.
Import Profiler.

Lemma fold_union_elem {A} (f : A -> Z) (l : list A) (S : gset Z) (x : Z) :
  x ∈ fold_left (fun s i => {[ f i ]} ∪ s) l S <-> x ∈ S \/ exists i, In i l /\ x = f i.
Proof.
  revert S; induction l as [|a l IH]; intros S; simpl.
  - split; [tauto|]. intros [H|[i [[] _]]]. exact H.
  - rewrite IH. split.
    + intros [H|[i [Hi ->]]].
      * apply elem_of_union in H as [H|H].
        -- apply elem_of_singleton in H. right. exists a. auto.
        -- left. exact H.
      * right. exists i. auto.
    + intros [H|[i [[<-|Hi] ->]]].
      * left. set_solver.
      * left. set_solver.
      * right. exists i. auto.
Qed.

Lemma insert_entry_elem (S : gset Z) (e : MemLogEntry) (x : Z) :
  x ∈ insert_entry S e <->
  x ∈ S \/ exists i, (i < num_bytes_written e)%nat /\ x = u64_wrap (address e + Z.of_nat i).
Proof.
  unfold insert_entry. rewrite fold_union_elem.
  split; intros [H|[i [Hi ->]]]; auto; right; exists i; split; auto.
  - apply in_seq in Hi. lia.
  - apply in_seq. lia.
Qed.

Lemma fold_insert_entry_elem (l : list MemLogEntry) (S : gset Z) (x : Z) :
  x ∈ fold_left insert_entry l S <->
  x ∈ S \/ exists e, In e l /\ exists i, (i < num_bytes_written e)%nat
                                      /\ x = u64_wrap (address e + Z.of_nat i).
Proof.
  revert S; induction l as [|e l IH]; intros S; simpl.
  - split; [tauto|]. intros [H|[e [[] _]]]. exact H.
  - rewrite IH, insert_entry_elem. split.
    + intros [[H|H]|[e' [He' Hi]]]; auto.
      * right. exists e. auto.
      * right. exists e'. auto.
    + intros [H|[e' [[<-|He'] Hi]]]; auto.
      right. exists e'. auto.
Qed.

(** [x as f64] of a positive integer is positive: finite or [+inf]. *)
Lemma shr_1_m (r : shr_record) : 0 <= shr_m r -> shr_m (shr_1 r) = Z.div2 (shr_m r).
Proof. destruct r as [[|[p|p|]|p] rr ss]; simpl; intros H; try reflexivity; lia. Qed.

Lemma shr_1_nonneg (r : shr_record) : 0 <= shr_m r -> 0 <= shr_m (shr_1 r).
Proof. intros H. rewrite shr_1_m by exact H. rewrite Z.div2_div. apply Z.div_pos; lia. Qed.

Lemma iter_shr_1_m (p : positive) (r : shr_record) :
  0 <= shr_m r -> shr_m (SpecFloat.iter_pos shr_1 p r) = Z.shiftr (shr_m r) (Zpos p) /\ 0 <= shr_m (SpecFloat.iter_pos shr_1 p r).
Proof.
  revert r; induction p as [p IH|p IH|]; intros r Hr; simpl.
  - destruct (IH (shr_1 r) (shr_1_nonneg r Hr)) as [H1 H2].
    destruct (IH _ H2) as [H3 H4]. split; [|exact H4].
    rewrite H3, H1, shr_1_m by exact Hr. rewrite Z.div2_spec.
    rewrite !Z.shiftr_shiftr by lia. f_equal. lia.
  - destruct (IH r Hr) as [H1 H2]. destruct (IH _ H2) as [H3 H4]. split; [|exact H4].
    rewrite H3, H1. rewrite Z.shiftr_shiftr by lia. f_equal. lia.
  - split; [rewrite shr_1_m by exact Hr; apply Z.div2_spec|apply shr_1_nonneg, Hr].
Qed.

Lemma digits2_pos_le (p : positive) : 2 ^ (Zpos (digits2_pos p) - 1) <= Zpos p.
Proof.
  induction p as [p IH|p IH|]; simpl; [| |lia];
    rewrite Pos2Z.inj_succ; replace (Z.succ (Zpos (digits2_pos p)) - 1) with (Z.succ (Zpos (digits2_pos p) - 1)) by lia;
    rewrite Z.pow_succ_r by lia; lia.
Qed.

Lemma shr_fexp_pos (m e : Z) (l : location) :
  0 < m -> -1000 <= e ->
  let '(r, e') := shr_fexp 53 1024 m e l in 0 < shr_m r /\ e <= e'.
Proof.
  intros Hm He. unfold shr_fexp, fexp, emin.
  destruct m as [|p|p]; [lia| |lia]. cbn [Zdigits2].
  pose proof (digits2_pos_le p) as Hd.
  set (d := Zpos (digits2_pos p)) in *.
  assert (Hd1 : 1 <= d) by (unfold d; lia).
  replace (Z.max (d + e - 53) (3 - 1024 - 53)) with (d + e - 53) by lia.
  replace (d + e - 53 - e) with (d - 53) by lia.
  unfold shr. destruct (d - 53) as [|k|k] eqn:Ek.
  - destruct l as [|[| |]]; simpl; lia.
  - assert (H0 : 0 <= shr_m (shr_record_of_loc (Zpos p) l)) by (destruct l as [|[| |]]; simpl; lia).
    destruct (iter_shr_1_m k _ H0) as [H1 _]. split; [|lia].
    rewrite H1. replace (shr_m (shr_record_of_loc (Zpos p) l)) with (Zpos p) by (destruct l as [|[| |]]; reflexivity).
    rewrite Z.shiftr_div_pow2 by lia. apply Z.div_str_pos. split; [apply Z.pow_pos_nonneg; lia|].
    eapply Z.le_trans; [|exact Hd]. apply Z.pow_le_mono_r; lia.
  - destruct l as [|[| |]]; simpl; lia.
Qed.

Lemma round_nearest_even_ge (m : Z) (l : location) : m <= round_nearest_even m l.
Proof. destruct l as [|[| |]]; simpl; try lia. destruct (Z.even m); lia. Qed.

Lemma binary_round_aux_pos (m : positive) (e : Z) :
  -1000 <= e ->
  (exists m' e', binary_round_aux 53 1024 false (Zpos m) e loc_Exact = S754_finite false m' e')
  \/ binary_round_aux 53 1024 false (Zpos m) e loc_Exact = S754_infinity false.
Proof.
  intros He. unfold binary_round_aux.
  pose proof (shr_fexp_pos (Zpos m) e loc_Exact ltac:(lia) He) as H1.
  destruct (shr_fexp 53 1024 (Zpos m) e loc_Exact) as [r e'] eqn:E1.
  destruct H1 as [Hr He'].
  pose proof (round_nearest_even_ge (shr_m r) (loc_of_shr_record r)) as Hg.
  pose proof (shr_fexp_pos (round_nearest_even (shr_m r) (loc_of_shr_record r)) e' loc_Exact ltac:(lia) ltac:(lia)) as H2.
  destruct (shr_fexp 53 1024 _ e' loc_Exact) as [r' e''] eqn:E2.
  destruct H2 as [Hr' _].
  destruct (shr_m r') as [|q|q]; [lia| |lia].
  destruct (e'' <=? 1024 - 53); [left; eexists _, _; reflexivity|right; reflexivity].
Qed.

Lemma of_nat_pos (n : nat) : (0 < n)%nat ->
  (exists m e, F.of_nat n = S754_finite false m e) \/ F.of_nat n = S754_infinity false.
Proof.
  intros Hn. unfold F.of_nat, binary_normalize.
  destruct (Z.of_nat n) as [|p|p] eqn:E; [lia| |lia].
  unfold binary_round.
  destruct (shl_align p 0 (fexp 53 1024 (Zpos (digits2_pos p) + 0))) as [mz ez] eqn:Es.
  apply binary_round_aux_pos.
  unfold shl_align, fexp, emin in Es.
  destruct (Z.max _ _ - 0) eqn:Ed; injection Es as <- <-; lia.
Qed.

(** C9 (amended): [mem_write_ratio] is the [f64] quotient of the number
    of distinct addresses written to by the supplied writeable-byte
    count, where the written addresses are exactly
    [address + i] (mod 2^64) for [i < num_bytes_written] over every
    write event of every run. Nothing bounds it: when the supplied
    count is 0 it is NaN if nothing was written and [+inf] otherwise. *)
Theorem mem_write_ratio_union {Seg RegisterState : Type}
  (p : Profile Seg RegisterState) (total : nat) :
  (forall x, x ∈ addresses_written_to p <->
     exists e, In e (concat (write_logs p)) /\
       exists i, (i < num_bytes_written e)%nat /\ x = u64_wrap (address e + Z.of_nat i))
  /\ mem_write_ratio total p
     = F.div (F.of_nat (stdpp.base.size (addresses_written_to p))) (F.of_nat total)
  /\ (total = 0%nat -> addresses_written_to p = ∅ -> mem_write_ratio total p = S754_nan)
  /\ (total = 0%nat -> addresses_written_to p <> ∅ -> mem_write_ratio total p = S754_infinity false).
Proof.
  split; [|split; [reflexivity|split]].
  - intros x. unfold addresses_written_to. rewrite fold_insert_entry_elem.
    split; [intros [H|H]; [set_solver|exact H] | intros H; right; exact H].
  - intros -> He. unfold mem_write_ratio. rewrite He, size_empty. reflexivity.
  - intros -> He. unfold mem_write_ratio.
    assert (Hs : (0 < stdpp.base.size (addresses_written_to p))%nat).
    { destruct (stdpp.base.size (addresses_written_to p)) eqn:E; [|lia].
      exfalso. apply He. apply leibniz_equiv. apply size_empty_inv. exact E. }
    destruct (of_nat_pos _ Hs) as [(m & e & ->)| ->]; reflexivity.
Qed.

(** C9 (counterexample): one write event of 8 bytes against a supplied
    writeable size of 4 bytes gives a ratio of 2, outside [0,1]. *)
Lemma mem_write_ratio_above_one :
  let p := ConcreteRoper.mk_profile [[]]
             [[{| program_counter := 4096; address := 0; num_bytes_written := 8;
                  value := 0 |}]] in
  mem_write_ratio 4 p = F.of_Z 2 /\ F.ltb F.one (mem_write_ratio 4 p) = true.
Proof. vm_compute. split; reflexivity. Qed.

End WriteRatio.

(* ------------------------------------------------------------------ *)
(** ** Averages over zero runs *)

Module Averages.
Import Profiler HelloWorld.

Lemma omap_all_none {A B} (f : A -> option B) (l : list A) :
  Forall (fun t => f t = None) l -> omap f l = [].
Proof. induction 1 as [|t l Ht _ IH]; simpl; [reflexivity|]. rewrite Ht. exact IH. Qed.

(** C6 (amended): an average over zero runs is NaN, returned without any
    error: [avg_emulation_micros] of a profile with no emulation times is
    [0.0 / 0.0], and the observer window's [report] over a frame without
    any scored entry computes a NaN average (which it only logs). *)
Theorem averages_over_nothing_are_nan :
  (forall {Seg RegisterState : Type} (p : Profile Seg RegisterState),
     emulation_times p = [] -> avg_emulation_micros p = S754_nan)
  /\ (forall w : Window,
        Forall (fun t => match t with Some x => fitness x | None => None end = None) (frame w) ->
        report w = S754_nan).
Proof.
  split.
  - intros Seg RegisterState p H. unfold avg_emulation_micros. rewrite H. reflexivity.
  - intros w H. unfold report. rewrite (omap_all_none _ _ H). reflexivity.
Qed.

Lemma averages_over_nothing_are_nan_witness :
  avg_emulation_micros (ConcreteRoper.mk_profile [] []) = S754_nan
  /\ report {| frame := [None; None]; wi := 0; wsize := 2 |} = S754_nan.
Proof.
  split.
  - apply (proj1 averages_over_nothing_are_nan). reflexivity.
  - apply (proj2 averages_over_nothing_are_nan). simpl. repeat constructor.
Defined.

(** C6 (counterexample): on a profile with no runs [avg_emulation_micros]
    returns NaN, and the first report of a one-slot window holding an
    unscored genome is NaN; no error is raised in either case. *)
Lemma average_of_no_runs_is_nan :
  F.is_nan (avg_emulation_micros (ConcreteRoper.mk_profile [] [])) = true
  /\ window_insert {| frame := [None]; wi := 0; wsize := 1 |}
       {| genes := []; fitness := None |}
     = Some ({| frame := [Some {| genes := []; fitness := None |}]; wi := 0; wsize := 1 |},
             Some S754_nan).
Proof. split; reflexivity. Qed.

End Averages.

(* ------------------------------------------------------------------ *)
(** ** Batch evaluation *)

Module EvalFacts.
Import Profiler Roper.

Section Pipeline.
Context {Seg RegisterState Genes Weights Sketch : Type}.
Abbreviation Creature := (Creature Seg RegisterState Genes Weights).
Abbreviation Profile := (Profile Seg RegisterState).
Variable execute_batch : list Creature -> option (list (Creature * Profile)).
Variable record_genetic_frequency : Creature -> Sketch -> Sketch.

Lemma score_all_length (ff : Creature -> Sketch -> Creature * Sketch)
  (cs : list Creature) (s : Sketch) :
  length (fst (score_all ff cs s)) = length cs.
Proof.
  revert s; induction cs as [|c cs IH]; intros s; simpl; [reflexivity|].
  destruct (ff c s) as [c' s1]. specialize (IH s1).
  destruct (score_all ff cs s1) as [rest s2]. simpl in *. lia.
Qed.

Lemma score_all_lookup (ff : Creature -> Sketch -> Creature * Sketch)
  (cs : list Creature) (s : Sketch) (i : nat) (c : Creature) :
  cs !! i = Some c ->
  fst (score_all ff cs s) !! i = Some (fst (ff c (snd (score_all ff (take i cs) s)))).
Proof.
  revert s i; induction cs as [|c0 cs IH]; intros s i Hi; [discriminate|].
  simpl. destruct (ff c0 s) as [c' s1] eqn:E.
  destruct (score_all ff cs s1) as [rest s2] eqn:E2.
  destruct i as [|j]; simpl in Hi |- *.
  - injection Hi as <-. rewrite E. reflexivity.
  - rewrite E. specialize (IH s1 j Hi). rewrite E2 in IH. simpl in IH. rewrite IH.
    destruct (score_all ff (take j cs) s1). reflexivity.
Qed.

Definition fresh_of (inbound : list Creature) : list Creature :=
  List.filter (fun c => negb (has_profile c)) inbound.

Definition combined_of (results : list (Creature * Profile)) (inbound : list Creature)
  : list Creature :=
  map (fun '(c, p) => set_profile c p) results ++ List.filter has_profile inbound.

Lemma eval_pipeline_inv (ff : Creature -> Sketch -> Creature * Sketch)
  (ev : Evaluator Seg RegisterState Genes Weights Sketch) inbound out ev' :
  eval_pipeline execute_batch record_genetic_frequency ff ev inbound = Some (out, ev') ->
  exists results,
    execute_batch (fresh_of inbound) = Some results
    /\ out = fst (score_all ff (combined_of results inbound) (sketch ev))
    /\ sketch ev' = fold_left (fun s c => record_genetic_frequency c s) out
                      (snd (score_all ff (combined_of results inbound) (sketch ev)))
    /\ submitted ev' = submitted ev ++ [fresh_of inbound].
Proof.
  unfold eval_pipeline. fold (fresh_of inbound).
  destruct (execute_batch (fresh_of inbound)) as [results|] eqn:E; [|discriminate].
  fold (combined_of results inbound).
  destruct (score_all ff (combined_of results inbound) (sketch ev)) as [batch sk1] eqn:E2.
  intros H. injection H as <- <-.
  exists results. rewrite E2. simpl. repeat split; reflexivity.
Qed.

(** C1 (as the code behaves; its own comment, and the spec, ask for the
    whole batch to pass through the sketch before any frequency is
    measured): [eval_pipeline] scores the combined batch -- the
    freshly executed candidates in the order the collaborator returned
    them, then the already-profiled ones -- one after the other: the
    [i]-th candidate is scored against the sketch left by scoring the
    first [i] candidates (the fitness function may update it while
    scoring), and only after the whole batch is scored does it apply
    [record_genetic_frequency] of every scored candidate, in order. *)
Theorem eval_pipeline_scores_sequentially
  (ff : Creature -> Sketch -> Creature * Sketch)
  (ev : Evaluator Seg RegisterState Genes Weights Sketch)
  (inbound out : list Creature) (ev' : Evaluator Seg RegisterState Genes Weights Sketch) :
  eval_pipeline execute_batch record_genetic_frequency ff ev inbound = Some (out, ev') ->
  exists results,
    execute_batch (fresh_of inbound) = Some results
    /\ length out = length (combined_of results inbound)
    /\ (forall i c, combined_of results inbound !! i = Some c ->
          out !! i = Some (fst (ff c (snd (score_all ff
                                   (take i (combined_of results inbound)) (sketch ev))))))
    /\ sketch ev' = fold_left (fun s c => record_genetic_frequency c s) out
                      (snd (score_all ff (combined_of results inbound) (sketch ev))).
Proof.
  intros H. destruct (eval_pipeline_inv ff ev inbound out ev' H)
    as (results & Hex & Hout & Hsk & _).
  exists results. split; [exact Hex|]. subst out. split; [|split].
  - apply score_all_length.
  - intros i c Hc. apply score_all_lookup. exact Hc.
  - exact Hsk.
Qed.

(** The shape of the three fitness functions of [evaluation.rs]
    ([code_coverage_ff], [register_pattern_ff], [register_conjunction_ff]):
    each returns the creature it was given, either unchanged or after
    [creature.set_fitness(fitness)]. *)
Definition only_sets_fitness (ff : Creature -> Sketch -> Creature * Sketch) : Prop :=
  forall c s, fst (ff c s) = c \/ exists w, fst (ff c s) = set_fitness c w.

(** C8 (amended): for any fitness function, [eval_pipeline] hands
    exactly one batch to the execution collaborator, the candidates
    without a profile, in order; each candidate that already carries a
    profile is not submitted and comes out after the fresh ones, as the
    fitness function's result on it against the current sketch (so its
    cached fitness is recomputed, not kept). When the fitness function
    only sets the fitness, as all three of [evaluation.rs] do, such a
    candidate keeps its profile, payload and tag. *)
Theorem eval_pipeline_skips_profiled
  (ff : Creature -> Sketch -> Creature * Sketch)
  (ev : Evaluator Seg RegisterState Genes Weights Sketch)
  (inbound out : list Creature) (ev' : Evaluator Seg RegisterState Genes Weights Sketch) :
  eval_pipeline execute_batch record_genetic_frequency ff ev inbound = Some (out, ev') ->
  submitted ev' = submitted ev ++ [fresh_of inbound]
  /\ Forall (fun c => profile c = None) (fresh_of inbound)
  /\ exists results,
       execute_batch (fresh_of inbound) = Some results
       /\ length out = (length results + length (List.filter has_profile inbound))%nat
       /\ forall j c, List.filter has_profile inbound !! j = Some c ->
            exists s c', out !! (length results + j)%nat = Some c'
              /\ c' = fst (ff c s)
              /\ (only_sets_fitness ff ->
                  profile c' = profile c /\ chromosome c' = chromosome c /\ tag c' = tag c).
Proof.
  intros H. destruct (eval_pipeline_inv ff ev inbound out ev' H)
    as (results & Hex & Hout & _ & Hsub).
  split; [exact Hsub|]. split.
  { apply Forall_forall. intros c Hc. apply list_elem_of_In, filter_In in Hc as [_ Hc].
    unfold has_profile in Hc. destruct (profile c); [discriminate|reflexivity]. }
  exists results. split; [exact Hex|]. split.
  { subst out. rewrite score_all_length. unfold combined_of.
    rewrite length_app, length_map. reflexivity. }
  intros j c Hj.
  assert (Hc : combined_of results inbound !! (length results + j)%nat = Some c).
  { unfold combined_of. rewrite lookup_app_r; rewrite length_map; [|lia].
    replace (length results + j - length results)%nat with j by lia. exact Hj. }
  set (s := snd (score_all ff (take (length results + j) (combined_of results inbound)) (sketch ev))).
  exists s, (fst (ff c s)). subst out. split.
  { apply score_all_lookup. exact Hc. }
  split; [reflexivity|]. intros Hff.
  destruct (Hff c s) as [->|[w ->]]; [auto|]. simpl. auto.
Qed.

Context (sketch_insert : Z -> Sketch -> Sketch) (sketch_query : Z -> Sketch -> F.f64).
Variable env : Env Weights.
Abbreviation ff := (code_coverage_ff sketch_insert sketch_query env).

Lemma code_coverage_ff_keeps (c : Creature) (s : Sketch) (p : Profile) :
  profile c = Some p ->
  profile (fst (ff c s)) = Some p /\ chromosome (fst (ff c s)) = chromosome c
  /\ tag (fst (ff c s)) = tag c /\ is_Some (fitness (fst (ff c s))).
Proof.
  intros Hp. unfold code_coverage_ff. rewrite Hp.
  destruct (insert_and_query _ _ _ _) as [sk' freq]. simpl.
  repeat split; [exact Hp | eexists; reflexivity].
Qed.

Lemma code_coverage_ff_only_sets_fitness : only_sets_fitness ff.
Proof.
  intros c s. unfold code_coverage_ff. destruct (profile c); [|left; reflexivity].
  destruct (insert_and_query _ _ _ _) as [sk' freq]. right. eexists. reflexivity.
Qed.
End Pipeline.

Arguments fresh_of {Seg RegisterState Genes Weights}.
Arguments combined_of {Seg RegisterState Genes Weights}.

Section Witnesses.
Import ConcreteRoper.

Lemma eval_pipeline_scores_sequentially_witness :
  let inbound := [fresh_c; old_c P0] in
  eval_pipeline (exec_all P0) count_record count_ff count_ev0 inbound
    = Some (fst count_result, snd count_result)
  /\ exists results,
      exec_all P0 (fresh_of inbound) = Some results
      /\ length (fst count_result) = length (combined_of results inbound)
      /\ (forall i c, combined_of results inbound !! i = Some c ->
            fst count_result !! i
            = Some (fst (count_ff c (snd (score_all count_ff
                                     (take i (combined_of results inbound)) (sketch count_ev0))))))
      /\ sketch (snd count_result)
         = fold_left (fun s c => count_record c s) (fst count_result)
             (snd (score_all count_ff (combined_of results inbound) (sketch count_ev0))).
Proof.
  intros inbound. split; [vm_compute; reflexivity|].
  apply (eval_pipeline_scores_sequentially (exec_all P0) count_record count_ff count_ev0
           inbound (fst count_result) (snd count_result)).
  vm_compute. reflexivity.
Defined.

Lemma eval_pipeline_skips_profiled_witness :
  let inbound := [fresh_c; old_c P1] in
  let out := fst coverage_result in
  let ev' := snd coverage_result in
  c_pipeline (exec_all P1) ev0 inbound = Some (out, ev')
  /\ EvalFacts.only_sets_fitness c_ff
  /\ submitted ev' = submitted ev0 ++ [fresh_of inbound]
  /\ Forall (fun c => profile c = None) (fresh_of inbound)
  /\ exists results,
       exec_all P1 (fresh_of inbound) = Some results
       /\ length out = (length results + length (List.filter has_profile inbound))%nat
       /\ forall j c, List.filter has_profile inbound !! j = Some c ->
            exists s c', out !! (length results + j)%nat = Some c'
              /\ c' = fst (c_ff c s)
              /\ (EvalFacts.only_sets_fitness c_ff ->
                  profile c' = profile c /\ chromosome c' = chromosome c /\ tag c' = tag c).
Proof.
  intros inbound out ev'. split; [vm_compute; reflexivity|].
  split; [exact (code_coverage_ff_only_sets_fitness exact_insert exact_query env0)|].
  apply (eval_pipeline_skips_profiled (exec_all P1) spec_record_frequency c_ff ev0 inbound out ev').
  vm_compute. reflexivity.
Defined.

(** C1 (failing input): two already-profiled candidates visiting the
    same address, scored in one batch from an empty sketch with the
    coverage fitness function: the second one's [code_frequency] is 2,
    while scoring it against the pre-batch (empty) sketch gives 1, as
    the two-phase policy requires. *)
Lemma eval_pipeline_score_sees_batch_insertions :
  match c_pipeline (fun _ => Some []) ev0 [old_c P1; old_c P1] with
  | Some (out, _) => (out !! 1%nat ≫= fun c => score_of c "code_frequency") = Some (F.of_Z 2)
  | None => False
  end
  /\ score_of (fst (c_ff (old_c P1) (sketch ev0))) "code_frequency" = Some (F.of_Z 1).
Proof. split; vm_compute; reflexivity. Qed.

(** C8 (counterexample): a candidate scored in a first batch carries a
    cached [code_frequency] of 1; passed again through [eval_pipeline] it
    is not re-executed, but its cached fitness is replaced by a new score
    of 3. *)
Lemma eval_pipeline_rescores_cached :
  match c_pipeline (exec_all P1) ev0 [fresh_c] with
  | Some ([c1], ev1) =>
      score_of c1 "code_frequency" = Some (F.of_Z 1)
      /\ match c_pipeline (fun _ => Some []) ev1 [c1] with
         | Some ([c1'], ev2) =>
             submitted ev2 = submitted ev1 ++ [[]]
             /\ profile c1' = profile c1
             /\ score_of c1' "code_frequency" = Some (F.of_Z 3)
         | _ => False
         end
  | _ => False
  end.
Proof. vm_compute. split; [reflexivity|]. split; [reflexivity|]. split; reflexivity. Qed.

End Witnesses.

End EvalFacts.

(* ------------------------------------------------------------------ *)
(** ** Tournament selection *)

Module EvolveFacts.
Import HelloWorld.

Lemma vec_pop_snoc {A} (l : list A) (x : A) : vec_pop (l ++ [x]) = Some (l, x).
Proof.
  induction l as [|a l IH]; [reflexivity|].
  simpl. rewrite IH. destruct (l ++ [x]) eqn:E; [destruct l; discriminate|reflexivity].
Qed.

Lemma pop_n_take {A} (n : nat) (l : list A) : pop_n n l = take (length l - n) l.
Proof.
  revert l; induction n as [|n IH]; intros l.
  - simpl. rewrite Nat.sub_0_r, take_ge; [reflexivity|lia].
  - destruct l as [|x l _] using rev_ind; [simpl; rewrite IH; reflexivity|].
    simpl. rewrite vec_pop_snoc, IH, length_app. simpl.
    rewrite take_app_le by lia. f_equal. lia.
Qed.

Lemma requeue_spec (cs pop : list Genome) (n : Z) :
  0 <= n ->
  let m := Nat.min (Z.to_nat n) (length cs) in
  requeue (length cs) n cs pop
  = (take (length cs - m) cs, pop ++ rev (drop (length cs - m) cs)).
Proof.
  revert pop n; induction cs as [|x cs IH] using rev_ind; intros pop n Hn m.
  - simpl. rewrite app_nil_r. reflexivity.
  - subst m. rewrite length_app. simpl length.
    replace (length cs + 1)%nat with (S (length cs)) by lia. simpl requeue.
    destruct (Z.leb_spec n 0) as [H0|H0].
    + assert (n = 0) as -> by lia. simpl Z.to_nat. rewrite Nat.min_0_l, Nat.sub_0_r.
      rewrite take_ge, drop_ge by (rewrite length_app; simpl; lia).
      simpl. rewrite app_nil_r. reflexivity.
    + rewrite vec_pop_snoc, IH by lia.
      replace (Nat.min (Z.to_nat n) (S (length cs)))
        with (S (Nat.min (Z.to_nat (n - 1)) (length cs))) by lia.
      set (k := (length cs - Nat.min (Z.to_nat (n - 1)) (length cs))%nat).
      replace (S (length cs) - S (Nat.min (Z.to_nat (n - 1)) (length cs)))%nat with k by lia.
      rewrite take_app_le, drop_app_le by lia.
      rewrite rev_app_distr. simpl. rewrite <- app_assoc. reflexivity.
Qed.

Lemma insert_sorted_perm (g : Genome) (l : list Genome) :
  Permutation (insert_sorted g l) (g :: l).
Proof.
  induction l as [|h t IH]; simpl; [reflexivity|].
  destruct (fit_le _ _); [|reflexivity].
  rewrite IH. apply perm_swap.
Qed.

Lemma sort_by_fitness_perm (l : list Genome) : Permutation (sort_by_fitness l) l.
Proof.
  unfold sort_by_fitness.
  assert (H : forall acc, Permutation (fold_left (fun acc g => insert_sorted g acc) l acc)
                                      (l ++ acc)).
  { induction l as [|g l IH]; intros acc; simpl; [reflexivity|].
    rewrite IH, insert_sorted_perm. symmetry. apply Permutation_middle. }
  rewrite H, app_nil_r. reflexivity.
Qed.


Lemma bind_done {R A B} (m : M R A) (k : A -> M R B) (s : St R) a s' :
  m s = Done a s' -> bind m k s = k a s'.
Proof. intros H. unfold bind. rewrite H. reflexivity. Qed.

Lemma bind_panic {R A B} (m : M R A) (k : A -> M R B) (s : St R) msg s' :
  m s = Panic msg s' -> bind m k s = Panic msg s'.
Proof. intros H. unfold bind. rewrite H. reflexivity. Qed.

Definition nonempty (g : Genome) : Prop := genes g <> [].

Section Monadic.
Context {R : Type}.
Variable gen_usize : R -> nat * R.
Variable gen_f32 : R -> Q * R.
Variable sample_alphanumeric : R -> ascii * R.
Variable gen_printable : R -> ascii * R.
Variable shuffle : list Genome -> R -> list Genome * R.
Variable levenshtein : list ascii -> list ascii -> nat.

Lemma draw_spec (tgt : list ascii) (n : nat) (pop acc : list Genome) (s : St R) :
  exists s', draw_combatants levenshtein tgt n pop acc s
    = Done (take (length pop - n) pop,
            acc ++ map (evaluate levenshtein tgt) (rev (drop (length pop - n) pop))) s'
    /\ rng s' = rng s
    /\ log s' = log s ++ repeat "Population empty!"%string (n - length pop).
Proof.
  revert pop acc s; induction n as [|n IH]; intros pop acc s.
  - exists s. rewrite Nat.sub_0_r, take_ge, drop_ge by lia. simpl.
    rewrite !app_nil_r. auto.
  - destruct pop as [|x pop _] using rev_ind.
    + simpl. destruct (IH [] acc {| rng := rng s; log := log s ++ ["Population empty!"%string];
                                    observed := observed s |}) as (s' & H1 & H2 & H3).
      exists s'. simpl in H1. unfold bind, log_msg. simpl. split; [exact H1|].
      simpl in H2, H3. rewrite Nat.sub_0_r in H3. rewrite H3, <- app_assoc. auto.
    + simpl draw_combatants. rewrite vec_pop_snoc.
      destruct (IH pop (acc ++ [evaluate levenshtein tgt x])
                  {| rng := rng s; log := log s;
                     observed := observed s ++ [evaluate levenshtein tgt x] |})
        as (s' & H1 & H2 & H3).
      exists s'. unfold bind, observe. rewrite H1. simpl in H2, H3.
      rewrite length_app. simpl length.
      replace (length pop + 1 - S n)%nat with (length pop - n)%nat by lia.
      replace (S n - (length pop + 1))%nat with (n - length pop)%nat by lia.
      rewrite take_app_le, drop_app_le by lia.
      rewrite rev_app_distr. simpl. rewrite <- app_assoc. auto.
Qed.

Lemma gen_index_done (n : nat) (s : St R) :
  n <> 0%nat ->
  exists i s', gen_index gen_usize n s = Done i s' /\ (i < n)%nat.
Proof.
  intros Hn. unfold gen_index, bind, with_rng.
  destruct n as [|n']; [contradiction|]. simpl Nat.eqb.
  eexists _, _. split; [reflexivity|]. apply Nat.mod_upper_bound. exact Hn.
Qed.

Lemma mutate_done (g : Genome) (s : St R) :
  nonempty g ->
  exists g' s', mutate gen_usize gen_printable g s = Done g' s' /\ nonempty g'.
Proof.
  intros Hg. unfold mutate.
  assert (Hl : length (genes g) <> 0%nat) by (unfold nonempty in *; destruct (genes g); [contradiction|discriminate]).
  destruct (gen_index_done _ s Hl) as (i & s1 & Hi & _).
  rewrite (bind_done _ _ _ _ _ Hi). unfold bind, with_rng, ret.
  eexists _, _. split; [reflexivity|]. unfold nonempty. simpl.
  intros H. apply (f_equal length) in H. rewrite length_insert in H. simpl in H. lia.
Qed.

Lemma mutate_each_done (rate : Q) (cs : list Genome) (s : St R) :
  Forall nonempty cs ->
  exists cs' s', mutate_each gen_usize gen_f32 gen_printable rate cs s = Done cs' s'
                /\ length cs' = length cs.
Proof.
  revert s; induction cs as [|c cs IH]; intros s Hcs.
  - eexists _, _. split; reflexivity.
  - inversion Hcs as [|? ? Hc Hrest]; subst.
    simpl. unfold bind at 1, with_rng. simpl.
    set (s1 := {| rng := snd (gen_f32 (rng s)); log := log s; observed := observed s |}).
    destruct (negb (Qle_bool rate (fst (gen_f32 (rng s))))).
    + destruct (mutate_done c s1 Hc) as (c' & s2 & Hm & _).
      rewrite (bind_done _ _ _ _ _ Hm).
      destruct (IH s2 Hrest) as (cs' & s3 & He & Hlen).
      rewrite (bind_done _ _ _ _ _ He). eexists _, _. split; [reflexivity|]. simpl. lia.
    + rewrite (bind_done (ret c) _ s1 c s1 eq_refl).
      destruct (IH s1 Hrest) as (cs' & s3 & He & Hlen).
      rewrite (bind_done _ _ _ _ _ He). eexists _, _. split; [reflexivity|]. simpl. lia.
Qed.

Lemma crossover_done (m f : Genome) (s : St R) :
  nonempty m -> nonempty f ->
  exists kids s', crossover gen_usize m f s = Done kids s'
                 /\ length kids = 2%nat /\ Forall nonempty kids.
Proof.
  intros Hm Hf. unfold crossover.
  assert (Hlm : length (genes m) <> 0%nat) by (unfold nonempty in *; destruct (genes m); [contradiction|discriminate]).
  assert (Hlf : length (genes f) <> 0%nat) by (unfold nonempty in *; destruct (genes f); [contradiction|discriminate]).
  destruct (gen_index_done _ s Hlm) as (i & s1 & Hi & Hilt).
  rewrite (bind_done _ _ _ _ _ Hi).
  destruct (gen_index_done _ s1 Hlf) as (j & s2 & Hj & Hjlt).
  rewrite (bind_done _ _ _ _ _ Hj).
  eexists _, _. split; [reflexivity|]. split; [reflexivity|].
  repeat constructor; unfold nonempty; simpl; intros H;
    apply (f_equal length) in H; rewrite length_app, length_take, length_drop in H;
    simpl in H; lia.
Qed.

Lemma mate_done (m f : Genome) (cfg : Config) (s : St R) :
  nonempty m -> nonempty f ->
  exists kids s', mate gen_usize gen_f32 gen_printable m f cfg s = Done kids s'
                 /\ length kids = 2%nat.
Proof.
  intros Hm Hf. unfold mate.
  destruct (crossover_done m f s Hm Hf) as (kids & s1 & Hc & Hlen & Hne).
  rewrite (bind_done _ _ _ _ _ Hc).
  destruct (mutate_each_done (mut_rate cfg) kids s1 Hne) as (kids' & s2 & He & Hlen').
  exists kids', s2. split; [exact He|]. lia.
Qed.

Lemma update_best_done (b : option Genome) (c : Genome) (s : St R) :
  exists b' s', update_best b c s = Done b' s'.
Proof.
  unfold update_best. destruct b as [b|].
  - destruct (fitter_than c b); eexists _, _; reflexivity.
  - eexists _, _; reflexivity.
Qed.

Hypothesis shuffle_perm : forall l r, Permutation (fst (shuffle l r)) l.

Lemma evaluate_nonempty (tgt : list ascii) (g : Genome) :
  nonempty g -> nonempty (evaluate levenshtein tgt g).
Proof. unfold evaluate, nonempty. destruct (fitness g); auto. Qed.

Lemma wrapping_sub_small (a b : nat) :
  (b <= a)%nat -> Z.of_nat a < 2 ^ 64 -> usize_wrapping_sub a b = Z.of_nat (a - b).
Proof. intros H1 H2. unfold usize_wrapping_sub. rewrite Z.mod_small; lia. Qed.

Lemma evolve_spec (e : Epoch) (s : St R) :
  let cfg := config e in
  let ts := tournament_size cfg in
  let no := num_offspring cfg in
  (no + 2 <= ts)%nat -> Z.of_nat ts < 2 ^ 64 -> (ts <= length (population e))%nat ->
  Forall nonempty (population e) ->
  let shuffled := fst (shuffle (population e) (rng s)) in
  let k := (length shuffled - ts)%nat in
  let sorted := sort_by_fitness (map (evaluate levenshtein (target cfg)) (rev (drop k shuffled))) in
  exists e' s' mother father kids,
    evolve gen_usize gen_f32 gen_printable shuffle levenshtein e s = Done e' s'
    /\ sorted !! 0%nat = Some father /\ sorted !! 1%nat = Some mother
    /\ population e' = take k shuffled ++ rev (drop 2 (take (ts - no) sorted))
                       ++ [mother; father] ++ kids
    /\ length kids = 2%nat
    /\ config e' = cfg /\ iteration e' = usize_wrapping_add (iteration e) 1.
Proof.
  intros cfg ts no Hle Hts Hpop Hne shuffled k sorted.
  assert (Hlen_sh : length shuffled = length (population e))
    by (apply Permutation_length, shuffle_perm).
  assert (Hne_sh : Forall nonempty shuffled)
    by (eapply Permutation_Forall; [symmetry; apply shuffle_perm|exact Hne]).
  assert (Hperm : Permutation sorted (map (evaluate levenshtein (target cfg)) (rev (drop k shuffled))))
    by apply sort_by_fitness_perm.
  assert (Hlen_sorted : length sorted = ts).
  { rewrite (Permutation_length Hperm), length_map, length_rev, length_drop. lia. }
  assert (Hne_sorted : Forall nonempty sorted).
  { eapply Permutation_Forall; [symmetry; exact Hperm|].
    apply Forall_map, Forall_rev. apply Forall_drop.
    eapply Forall_impl; [exact Hne_sh|]. intros g Hg. apply evaluate_nonempty, Hg. }
  unfold evolve.
  set (s1 := {| rng := snd (shuffle (population e) (rng s)); log := log s;
                observed := observed s |}).
  rewrite (bind_done (with_rng (shuffle (population e))) _ s shuffled s1 eq_refl).
  destruct (draw_spec (target cfg) ts shuffled [] s1) as (s2 & Hd & _ & _).
  rewrite (bind_done _ _ _ _ _ Hd). rewrite app_nil_l.
  fold cfg ts no k. fold sorted. clearbody sorted.
  destruct sorted as [|c0 [|c1 rest]]; try (simpl in Hlen_sorted; lia).
  inversion Hne_sorted as [|? ? Hc0 Hne_rest]; subst.
  inversion Hne_rest as [|? ? Hc1 _]; subst.
  destruct (update_best_done (best e) c0 s2) as (b' & s3 & Hb).
  rewrite (bind_done _ _ _ _ _ Hb).
  rewrite (wrapping_sub_small ts (no + 2)) by lia.
  rewrite pop_n_take, requeue_spec by lia.
  rewrite length_take, Hlen_sorted, Nat2Z.id.
  replace (Nat.min (ts - no) ts) with (ts - no)%nat by lia.
  replace (Nat.min (ts - (no + 2)) (ts - no)) with (ts - (no + 2))%nat by lia.
  replace (ts - no - (ts - (no + 2)))%nat with 2%nat by lia.
  replace (ts - no)%nat with (S (S (ts - no - 2))) by lia.
  cbn [take drop rev app]. rewrite take_0, drop_0.
  destruct (mate_done c1 c0 cfg s3 Hc1 Hc0) as (kids & s4 & Hm & Hk).
  exists {| population := (take k shuffled ++ rev (take (ts - no - 2) rest)) ++ [c1; c0] ++ kids;
            config := cfg; best := b'; iteration := usize_wrapping_add (iteration e) 1 |}, s4, c1, c0, kids.
  split; [|repeat split; [cbn; rewrite app_assoc; reflexivity|exact Hk]].
  unfold bind, unwrap, ret. cbn -[mate]. rewrite Hm. reflexivity.
Qed.

Lemma update_best_log (b : option Genome) (c : Genome) (s : St R) b' s' :
  update_best b c s = Done b' s' -> exists extra, log s' = log s ++ extra.
Proof.
  unfold update_best, bind, log_msg, ret.
  destruct b as [b|]; [destruct (fitter_than c b)|]; intros H; inversion H; subst.
  - exists ["new champ"%string]; reflexivity.
  - exists []; rewrite app_nil_r; reflexivity.
  - exists ["new champ"%string]; reflexivity.
Qed.

Lemma evolve_panics_with_few (e : Epoch) (s : St R) :
  let cfg := config e in
  let ts := tournament_size cfg in
  let no := num_offspring cfg in
  (length (population e) < ts \/ ts < no + 2)%nat -> Z.of_nat ts < 2 ^ 64 ->
  exists msg s',
    evolve gen_usize gen_f32 gen_printable shuffle levenshtein e s = Panic msg s'
    /\ exists extra,
         log s' = log s ++ repeat "Population empty!"%string (ts - length (population e))
                  ++ extra.
Proof.
  intros cfg ts no Hcase Hts.
  assert (Hlen_sh : length (fst (shuffle (population e) (rng s))) = length (population e))
    by (apply Permutation_length, shuffle_perm).
  unfold evolve.
  set (shuffled := fst (shuffle (population e) (rng s))) in *.
  set (s1 := {| rng := snd (shuffle (population e) (rng s)); log := log s;
                observed := observed s |}).
  rewrite (bind_done (with_rng (shuffle (population e))) _ s shuffled s1 eq_refl).
  destruct (draw_spec (target cfg) ts shuffled [] s1) as (s2 & Hd & _ & Hlog2).
  rewrite (bind_done _ _ _ _ _ Hd). rewrite app_nil_l. fold cfg ts no.
  rewrite Hlen_sh in Hlog2. simpl log in Hlog2.
  pose proof (sort_by_fitness_perm
                (map (evaluate levenshtein (target cfg))
                   (rev (drop (length shuffled - ts) shuffled)))) as Hperm.
  apply Permutation_length in Hperm.
  rewrite length_map, length_rev, length_drop in Hperm.
  destruct (sort_by_fitness _) as [|c0 rest] eqn:Es.
  - eexists _, s2. split; [reflexivity|]. exists []. rewrite app_nil_r. exact Hlog2.
  - destruct (update_best_done (best e) c0 s2) as (b' & s3 & Hb).
    rewrite (bind_done _ _ _ _ _ Hb).
    destruct (update_best_log _ _ _ _ _ Hb) as [extra Hex].
    assert (Hn : 0 <= usize_wrapping_sub ts (no + 2))
      by (unfold usize_wrapping_sub; apply Z.mod_pos_bound; lia).
    match goal with
    | |- context [requeue ?a ?b ?c ?d] =>
        pose proof (requeue_spec c d b Hn) as Hrq;
        destruct (requeue a b c d) as [left pop'] eqn:Hrq'
    end.
    cbv zeta in Hrq. injection Hrq as Hleft _.
    assert (Hshort : (length left <= 1)%nat).
    { rewrite Hleft, length_take, pop_n_take, length_take.
      simpl length in Hperm |- *.
      destruct (Nat.leb_spec (no + 2) ts) as [Hv|Hv].
      - rewrite (wrapping_sub_small ts (no + 2)), Nat2Z.id by lia.
        destruct Hcase as [Hc|Hc]; lia.
      - lia. }
    assert (Hlog3 : log s3 = log s ++ repeat "Population empty!"%string
                                (ts - length (population e)) ++ extra)
      by (rewrite Hex, Hlog2, app_assoc; reflexivity).
    destruct left as [|x [|y t]]; [| |simpl in Hshort; lia].
    + eexists _, s3. split; [reflexivity|]. exists extra. exact Hlog3.
    + eexists _, s3. split; [reflexivity|]. exists extra. exact Hlog3.
Qed.

Lemma sample_genes_done (len : nat) (s : St R) :
  exists l s', sample_genes sample_alphanumeric len s = Done l s'.
Proof.
  revert s; induction len as [|len IH]; intros s; [eexists _, _; reflexivity|].
  simpl. unfold bind at 1. simpl.
  destruct (IH {| rng := snd (sample_alphanumeric (rng s)); log := log s;
                  observed := observed s |}) as (l & s' & H).
  unfold bind. rewrite H. eexists _, _; reflexivity.
Qed.

Lemma sample_population_done (n len : nat) (s : St R) :
  exists p s', sample_population sample_alphanumeric n len s = Done p s'.
Proof.
  revert s; induction n as [|n IH]; intros s; [eexists _, _; reflexivity|].
  simpl. destruct (sample_genes_done len s) as (l & s1 & H1).
  unfold Genome_new. unfold bind at 1 2. rewrite H1. cbn [ret].
  destruct (IH s1) as (p & s2 & H2). unfold bind. rewrite H2.
  eexists _, _; reflexivity.
Qed.

Lemma Epoch_new_done (cfg : Config) (s : St R) :
  exists e s', Epoch_new sample_alphanumeric cfg s = Done e s' /\ config e = cfg.
Proof.
  unfold Epoch_new.
  destruct (sample_population_done (pop_size cfg) (init_len cfg) s) as (p & s' & H).
  unfold bind. rewrite H. eexists _, _; split; reflexivity.
Qed.

(** C4 (as the code behaves): in a generation with a valid configuration
    ([num_offspring + 2 <= tournament_size]), at least [tournament_size]
    candidates, all with non-empty genes, [evolve] returns the
    [length population - tournament_size] undrawn candidates, exactly
    [tournament_size - (num_offspring + 2)] bystanders taken unchanged
    from the sorted combatants, the two best combatants as parents
    (mother the second, father the first), and exactly 2 children --
    the children of one [mate] call, whatever [num_offspring] is. *)
Theorem evolve_breeds_two_children (e : Epoch) (s : St R) :
  let ts := tournament_size (config e) in
  let no := num_offspring (config e) in
  (no + 2 <= ts)%nat -> Z.of_nat ts < 2 ^ 64 -> (ts <= length (population e))%nat ->
  Forall nonempty (population e) ->
  exists e' s' sorted rest bystanders mother father kids,
    evolve gen_usize gen_f32 gen_printable shuffle levenshtein e s = Done e' s'
    /\ population e' = rest ++ bystanders ++ [mother; father] ++ kids
    /\ length rest = (length (population e) - ts)%nat
    /\ length sorted = ts
    /\ bystanders = rev (drop 2 (take (ts - no) sorted))
    /\ length bystanders = (ts - (no + 2))%nat
    /\ sorted !! 0%nat = Some father /\ sorted !! 1%nat = Some mother
    /\ length kids = 2%nat.
Proof.
  intros ts no H1 H2 H3 H4.
  destruct (evolve_spec e s H1 H2 H3 H4)
    as (e' & s' & mother & father & kids & Hev & Hf & Hm & Hpop & Hk & _ & _).
  set (shuffled := fst (shuffle (population e) (rng s))) in *.
  assert (Hlen_sh : length shuffled = length (population e))
    by (apply Permutation_length, shuffle_perm).
  set (sorted := sort_by_fitness _) in *.
  assert (Hls : length sorted = ts).
  { unfold sorted. rewrite (Permutation_length (sort_by_fitness_perm _)).
    rewrite length_map, length_rev, length_drop. fold ts. lia. }
  exists e', s', sorted, (take (length shuffled - ts) shuffled),
    (rev (drop 2 (take (ts - no) sorted))), mother, father, kids.
  repeat split; auto.
  - rewrite length_take. lia.
  - rewrite length_rev, length_drop, length_take. lia.
Qed.


(** C10 (corrected): take a population of at least [tournament_size]
    candidates with non-empty genes. With a valid configuration
    ([num_offspring + 2 <= tournament_size]) one [evolve] completes,
    changes the population size by exactly [2 - num_offspring] (so it
    keeps the size exactly when [num_offspring = 2]), keeps the
    configuration and adds 1 to the generation index as a release build
    does ([usize] addition modulo [2^64]: exactly 1 below [2^64 - 1],
    back to 0 from [2^64 - 1]). With an invalid configuration
    ([tournament_size < num_offspring + 2]) [evolve] panics. *)
Theorem evolve_population_drift (e : Epoch) (s : St R) :
  let ts := tournament_size (config e) in
  let no := num_offspring (config e) in
  Z.of_nat ts < 2 ^ 64 -> (ts <= length (population e))%nat ->
  Forall nonempty (population e) ->
  ((no + 2 <= ts)%nat ->
   exists e' s',
     evolve gen_usize gen_f32 gen_printable shuffle levenshtein e s = Done e' s'
     /\ Z.of_nat (length (population e')) = Z.of_nat (length (population e)) + 2 - Z.of_nat no
     /\ (length (population e') = length (population e) <-> no = 2%nat)
     /\ config e' = config e
     /\ iteration e' = usize_wrapping_add (iteration e) 1
     /\ (Z.of_nat (iteration e) + 1 < 2 ^ 64 -> iteration e' = S (iteration e))
     /\ (Z.of_nat (iteration e) + 1 = 2 ^ 64 -> iteration e' = 0%nat))
  /\ ((ts < no + 2)%nat ->
      exists msg s', evolve gen_usize gen_f32 gen_printable shuffle levenshtein e s = Panic msg s').
Proof.
  intros ts no H2 H3 H4. split.
  2:{ intros H1. destruct (evolve_panics_with_few e s) as (msg & s' & Hev & _);
      [right; exact H1|exact H2|]. exists msg, s'. exact Hev. }
  intros H1.
  destruct (evolve_spec e s H1 H2 H3 H4)
    as (e' & s' & mother & father & kids & Hev & _ & _ & Hpop & Hk & Hc & Hi).
  set (shuffled := fst (shuffle (population e) (rng s))) in *.
  assert (Hlen_sh : length shuffled = length (population e))
    by (apply Permutation_length, shuffle_perm).
  set (sorted := sort_by_fitness _) in *.
  assert (Hls : length sorted = ts).
  { unfold sorted. rewrite (Permutation_length (sort_by_fitness_perm _)).
    rewrite length_map, length_rev, length_drop. fold ts. lia. }
  assert (Hl : length (population e') = (length (population e) + 2 - no)%nat).
  { rewrite Hpop. rewrite !length_app, length_take, length_rev, length_drop, length_take.
    simpl length. rewrite Hk. fold ts no. lia. }
  exists e', s'. repeat split; auto; try lia.
  - intros Hsm. rewrite Hi. unfold usize_wrapping_add. change (Z.of_nat 1) with 1.
    rewrite Z.mod_small by lia. lia.
  - intros Heq. rewrite Hi. unfold usize_wrapping_add. change (Z.of_nat 1) with 1.
    rewrite Heq, Z.mod_same by lia. reflexivity.
Qed.

(** C5 (as the code behaves): a configuration with
    [tournament_size < num_offspring + 2] is not rejected at startup.
    [Config::assert_invariants] would reject it, but [run] never calls
    it: the start-up of [run] (sampling the first epoch) completes, and
    it is the first [evolve] that panics, mid-run. *)
Theorem invalid_config_fails_mid_run (cfg : Config) (s : St R) :
  (tournament_size cfg < num_offspring cfg + 2)%nat -> Z.of_nat (tournament_size cfg) < 2 ^ 64 ->
  (exists msg s', @assert_invariants R cfg s = Panic msg s')
  /\ (exists r s', run gen_usize gen_f32 sample_alphanumeric gen_printable shuffle levenshtein
                         0 cfg s = Done r s')
  /\ (exists msg s', run gen_usize gen_f32 sample_alphanumeric gen_printable shuffle levenshtein
                           1 cfg s = Panic msg s').
Proof.
  intros H1 H2.
  destruct (Epoch_new_done cfg s) as (e & s1 & He & Hc).
  split; [|split].
  - unfold assert_invariants. destruct (Nat.leb_spec (num_offspring cfg + 2) (tournament_size cfg));
      [lia|eexists _, _; reflexivity].
  - unfold run. unfold bind. rewrite He. eexists _, _; reflexivity.
  - unfold run. unfold bind at 1. rewrite He. simpl run_loop.
    destruct (evolve_panics_with_few e s1) as (msg & s2 & Hev & _);
      [right; rewrite Hc; exact H1|rewrite Hc; exact H2|].
    unfold bind. rewrite Hev. eexists _, _; reflexivity.
Qed.
End Monadic.


Section Witnesses.
Import ConcreteHW.

Lemma c_shuffle_perm (l : list Genome) (r : CRng) : Permutation (fst (c_shuffle l r)) l.
Proof. apply Permutation_refl. Qed.

Lemma pop5_nonempty : Forall nonempty pop5.
Proof.
  unfold pop5; repeat (constructor; [unfold nonempty; simpl; discriminate|]); constructor.
Qed.

Lemma evolve_breeds_two_children_witness :
  (3 + 2 <= 5)%nat /\ Z.of_nat 5 < 2 ^ 64 /\ (5 <= length pop5)%nat /\ Forall nonempty pop5 /\
  exists e' s' sorted rest bystanders mother father kids,
    c_evolve (epoch 5 3 pop5) st0 = Done e' s'
    /\ population e' = rest ++ bystanders ++ [mother; father] ++ kids
    /\ length rest = (length pop5 - 5)%nat
    /\ length sorted = 5%nat
    /\ bystanders = rev (drop 2 (take (5 - 3) sorted))
    /\ length bystanders = (5 - (3 + 2))%nat
    /\ sorted !! 0%nat = Some father /\ sorted !! 1%nat = Some mother
    /\ length kids = 2%nat.
Proof.
  assert (H2 : Z.of_nat 5 < 2 ^ 64) by (vm_compute; reflexivity).
  assert (H3 : (5 <= length pop5)%nat) by (vm_compute; lia).
  refine (conj _ (conj H2 (conj H3 (conj pop5_nonempty _)))); [lia|].
  exact (evolve_breeds_two_children c_gen_usize c_gen_f32 c_printable c_shuffle levenshtein
           c_shuffle_perm (epoch 5 3 pop5) st0 ltac:(simpl; lia) H2 H3 pop5_nonempty).
Defined.



Lemma evolve_population_drift_witness :
  Z.of_nat 5 < 2 ^ 64 /\ (5 <= length pop5)%nat /\ Forall nonempty pop5 /\
  (exists e' s',
    c_evolve (epoch 5 2 pop5) st0 = Done e' s'
    /\ Z.of_nat (length (population e')) = Z.of_nat (length pop5) + 2 - Z.of_nat 2
    /\ (length (population e') = length pop5 <-> 2%nat = 2%nat)
    /\ config e' = cfg 5 2
    /\ iteration e' = usize_wrapping_add 0 1
    /\ (Z.of_nat 0 + 1 < 2 ^ 64 -> iteration e' = 1%nat)
    /\ (Z.of_nat 0 + 1 = 2 ^ 64 -> iteration e' = 0%nat))
  /\ Z.of_nat 3 < 2 ^ 64 /\ (3 <= length pop5)%nat /\
  exists msg s', c_evolve (epoch 3 2 pop5) st0 = Panic msg s'.
Proof.
  assert (H2 : Z.of_nat 5 < 2 ^ 64) by (vm_compute; reflexivity).
  assert (H3 : (5 <= length pop5)%nat) by (vm_compute; lia).
  assert (H2' : Z.of_nat 3 < 2 ^ 64) by (vm_compute; reflexivity).
  assert (H3' : (3 <= length pop5)%nat) by (vm_compute; lia).
  refine (conj H2 (conj H3 (conj pop5_nonempty (conj _ (conj H2' (conj H3' _)))))).
  - exact (proj1 (evolve_population_drift c_gen_usize c_gen_f32 c_printable c_shuffle levenshtein
           c_shuffle_perm (epoch 5 2 pop5) st0 H2 H3 pop5_nonempty) ltac:(simpl; lia)).
  - exact (proj2 (evolve_population_drift c_gen_usize c_gen_f32 c_printable c_shuffle levenshtein
           c_shuffle_perm (epoch 3 2 pop5) st0 H2' H3' pop5_nonempty) ltac:(simpl; lia)).
Defined.

(** C10: with [tournament_size = 3] and [num_offspring = 2] a population
    of five candidates does not change by [2 - num_offspring]: the
    generation panics. *)
Lemma evolve_invalid_config_no_drift :
  (3 <= length pop5)%nat /\ is_panic (c_evolve (epoch 3 2 pop5) st0) = true.
Proof. split; vm_compute; [lia|reflexivity]. Qed.

Lemma invalid_config_fails_mid_run_witness :
  (3 < 2 + 2)%nat /\ Z.of_nat 3 < 2 ^ 64 /\
  (exists msg s', @assert_invariants CRng (cfg 3 2) st0 = Panic msg s')
  /\ (exists r s', c_run 0 (cfg 3 2) st0 = Done r s')
  /\ (exists msg s', c_run 1 (cfg 3 2) st0 = Panic msg s').
Proof.
  assert (H1 : (3 < 2 + 2)%nat) by lia.
  assert (H2 : Z.of_nat 3 < 2 ^ 64) by (vm_compute; reflexivity).
  refine (conj H1 (conj H2 _)).
  exact (invalid_config_fails_mid_run c_gen_usize c_gen_f32 c_alnum c_printable c_shuffle
           levenshtein c_shuffle_perm (cfg 3 2) st0 H1 H2).
Defined.
End Witnesses.
End EvolveFacts.

(* ------------------------------------------------------------------ *)
(** ** Further properties of [profiler.rs] *)

Module ProfilerMore.
Import Profiler.

Section Runs.
Context {Seg Registers RegisterState : Type}.
Variable RegisterState_new : Registers -> list Seg -> RegisterState.
Abbreviation Profiler := (Profiler Seg Registers).
Abbreviation Profile := (Profile Seg RegisterState).
Abbreviation collate := (collate RegisterState_new).
Abbreviation from := (from_profiler RegisterState_new).

Lemma drain_gadgets_elem (q : list Z) (x : Z) : x ∈ drain_gadgets q <-> In x q.
Proof.
  unfold drain_gadgets. rewrite (WriteRatio.fold_union_elem (fun g => g)).
  split; [intros [H|[i [Hi ->]]]; [set_solver|exact Hi]|intros H; right; eauto].
Qed.

Lemma fold_collate_step (rs : list Profiler) (a : CollateAcc) :
  fold_left (collate_step RegisterState_new) rs a =
  {| acc_paths := acc_paths a ++ map block_log rs;
     acc_cpu_errors := acc_cpu_errors a ++ map cpu_error rs;
     acc_times := acc_times a ++ map emulation_time rs;
     acc_regs := acc_regs a ++ map (fun r => RegisterState_new (registers r) (written_memory r)) rs;
     acc_gadgets := acc_gadgets a ++ map (fun r => drain_gadgets (gadget_log r)) rs;
     acc_write_logs := acc_write_logs a ++ map write_log rs |}.
Proof.
  revert a; induction rs as [|r rs IH]; intros a.
  - destruct a; simpl. rewrite !app_nil_r. reflexivity.
  - simpl. rewrite IH. simpl. rewrite <- !app_assoc. reflexivity.
Qed.

(** [Profile::collate] keeps one entry per run in every per-run field,
    the [i]-th taken from the [i]-th run record, marks the profile
    executable, and leaves [writeable_memory] empty (no conversion ever
    fills it). *)
Theorem collate_fields (rs : list Profiler) :
  paths (collate rs) = map block_log rs
  /\ cpu_errors (collate rs) = map cpu_error rs
  /\ emulation_times (collate rs) = map emulation_time rs
  /\ registers_p (collate rs)
     = map (fun r => RegisterState_new (registers r) (written_memory r)) rs
  /\ gadgets_executed (collate rs) = map (fun r => drain_gadgets (gadget_log r)) rs
  /\ write_logs (collate rs) = map write_log rs
  /\ writeable_memory (collate rs) = []
  /\ executable (collate rs) = true.
Proof.
  unfold Profiler.collate. rewrite fold_collate_step. simpl. repeat split.
Qed.

Lemma executed_in_app (gs1 gs2 : list (gset Z)) (w : Z) :
  executed_in (gs1 ++ gs2) w = executed_in gs1 w || executed_in gs2 w.
Proof.
  induction gs1 as [|g gs IH]; simpl; [reflexivity|].
  case_bool_decide; [reflexivity|exact IH].
Qed.

Lemma executed_in_spec (gs : list (gset Z)) (w : Z) :
  executed_in gs w = true <-> exists g, In g gs /\ w ∈ g.
Proof.
  induction gs as [|g gs IH]; simpl.
  - split; [discriminate|intros [g [[] _]]].
  - case_bool_decide as Hw.
    + split; [intros _; exists g; auto|reflexivity].
    + rewrite IH. split; [intros [g' [Hg' Hw']]; exists g'; auto|].
      intros [g' [[<-|Hg'] Hw']]; [contradiction|eauto].
Qed.

(** [Profile::was_this_executed] on absorbed profiles is the disjunction
    of the two; on a collated profile it holds exactly when the address
    is in the gadget log of some run. *)
Theorem was_this_executed_runs (p q : Profile) (rs : list Profiler) (w : Z) :
  was_this_executed (absorb p q) w = was_this_executed p w || was_this_executed q w
  /\ (was_this_executed (collate rs) w = true <-> exists r, In r rs /\ In w (gadget_log r)).
Proof.
  split.
  - unfold was_this_executed, absorb. simpl. apply executed_in_app.
  - unfold was_this_executed. destruct (collate_fields rs) as (_ & _ & _ & _ & Hg & _).
    rewrite Hg, executed_in_spec. split.
    + intros [g [Hg' Hw]]. apply in_map_iff in Hg' as [r [<- Hr]].
      apply drain_gadgets_elem in Hw. eauto.
    + intros [r [Hr Hw]]. exists (drain_gadgets (gadget_log r)).
      split; [apply in_map_iff; eauto|apply drain_gadgets_elem, Hw].
Qed.

(** [Profile::was_this_written] returns exactly the logged writes of the
    value, over all runs, in log order; on absorbed profiles it is the
    concatenation of the two results. *)
Theorem was_this_written_spec (p q : Profile) (w : Z) :
  (forall e, In e (was_this_written p w) <-> In e (concat (write_logs p)) /\ value e = w)
  /\ was_this_written (absorb p q) w = was_this_written p w ++ was_this_written q w.
Proof.
  split.
  - intros e. unfold was_this_written. rewrite filter_In, Z.eqb_eq. reflexivity.
  - unfold was_this_written, absorb. simpl. rewrite concat_app. apply List.filter_app.
Qed.

(** The addresses written to by an absorbed profile are the union of the
    two profiles' ones. *)
Theorem addresses_written_to_absorb (p q : Profile) :
  addresses_written_to (absorb p q) = addresses_written_to p ∪ addresses_written_to q.
Proof.
  apply set_eq. intros x. rewrite elem_of_union.
  unfold addresses_written_to, absorb. simpl. rewrite concat_app.
  rewrite !WriteRatio.fold_insert_entry_elem.
  split.
  - intros [H|[e [He Hi]]]; [set_solver|].
    apply in_app_or in He as [He|He]; [left|right]; right; eauto.
  - intros [[H|[e [He Hi]]]|[H|[e [He Hi]]]]; try set_solver;
      right; exists e; split; auto; apply in_or_app; auto.
Qed.
End Runs.

End ProfilerMore.

(* ------------------------------------------------------------------ *)
(** ** Reading the registers *)

Module RegistersMore.
Import ProfilerRegisters.

Section Read.
Context {Register : Type} `{Countable Register}.
Variable reg_read : Register -> option Z.

(** [Profiler::read_registers] completes exactly when every register to
    read can be read; [Profiler::register] then gives, for a register of
    the list, the value read for it last in the list order (the value
    the emulator holds), and for any other register its previous
    entry. *)
Theorem read_registers_spec (to_read : list Register) (regs : gmap Register Z) :
  (is_Some (read_registers reg_read to_read regs)
   <-> Forall (fun r => is_Some (reg_read r)) to_read)
  /\ (forall regs', read_registers reg_read to_read regs = Some regs' ->
        forall r, register regs' r = if decide (r ∈ to_read) then reg_read r else register regs r).
Proof.
  unfold register. revert regs; induction to_read as [|r rs IH]; intros regs; simpl.
  - split; [split; [constructor|intros _; eexists; reflexivity]|].
    intros regs' [= <-] r. reflexivity.
  - destruct (reg_read r) as [v|] eqn:Hr.
    + destruct (IH (<[r:=v]> regs)) as [IH1 IH2]. split.
      * rewrite IH1. split; [intros HF; constructor; [rewrite Hr; eexists; reflexivity|exact HF]|].
        intros HF; inversion HF; assumption.
      * intros regs' Hregs r'. rewrite (IH2 regs' Hregs r').
        case_decide as Hin; case_decide as Hin'.
        -- reflexivity.
        -- exfalso. apply Hin'. apply elem_of_cons. right. exact Hin.
        -- apply elem_of_cons in Hin' as [->|Hin']; [|contradiction].
           rewrite lookup_insert_eq. congruence.
        -- assert (Hne : r <> r') by (intros ->; apply Hin'; apply elem_of_cons; left; reflexivity).
           rewrite lookup_insert_ne by exact Hne. reflexivity.
    + split; [|discriminate].
      split; [intros [? ?]; discriminate|intros HF; inversion HF as [|? ? [? Hs]]; congruence].
Qed.
End Read.

Lemma read_registers_spec_witness :
  let rd := fun r : nat => Some (Z.of_nat r * 10) in
  (is_Some (read_registers rd [1; 2]%nat ∅) <-> Forall (fun r => is_Some (rd r)) [1; 2]%nat)
  /\ (forall regs', read_registers rd [1; 2]%nat ∅ = Some regs' ->
        forall r, register regs' r = if decide (r ∈ [1; 2]%nat) then rd r else register ∅ r)
  /\ read_registers rd [1; 2]%nat ∅ = Some (<[2%nat := 20]> (<[1%nat := 10]> ∅)).
Proof.
  intros rd. destruct (read_registers_spec rd [1; 2]%nat ∅) as [H1 H2].
  split; [exact H1|split; [exact H2|reflexivity]].
Defined.

End RegistersMore.

(* ------------------------------------------------------------------ *)
(** ** Further properties of [roper/evaluation.rs] *)

Module RoperMore.
Import Profiler Roper.

Lemma fold_elem_gen {A} (g : A -> gset Z -> gset Z) (P : A -> Z -> Prop)
  (Hg : forall a S x, x ∈ g a S <-> x ∈ S \/ P a x) (l : list A) (S : gset Z) (x : Z) :
  x ∈ fold_left (fun s a => g a s) l S <-> x ∈ S \/ exists a, In a l /\ P a x.
Proof.
  revert S; induction l as [|a l IH]; intros S; simpl.
  - split; [tauto|]. intros [H|[a [[] _]]]. exact H.
  - rewrite IH, Hg. split.
    + intros [[H|H]|[a' [Ha' H]]]; [left; exact H|right; exists a; auto|right; eauto].
    + intros [H|[a' [[<-|Ha'] H]]]; [left; left; exact H|left; right; exact H|right; eauto].
Qed.

Lemma block_addresses_in (b : Block) (a : Z) :
  In a (block_addresses b) <-> entry b <= a < u64_wrap (entry b + Z.of_nat (size b)).
Proof.
  unfold block_addresses. rewrite in_map_iff.
  set (stop := u64_wrap (entry b + Z.of_nat (size b))). split.
  - intros [k [<- Hk]]. apply in_seq in Hk. lia.
  - intros [H1 H2]. exists (Z.to_nat (a - entry b)). split.
    + rewrite Z2Nat.id; lia.
    + apply in_seq. lia.
Qed.

(** The addresses [code_coverage_ff] counts as visited are those of the
    ranges [entry .. entry + size] (the end computed in [u64]) of the
    blocks of every path of the profile; a block whose end wraps past
    [2^64] contributes none. *)
Theorem addresses_visited_spec {Seg RegisterState : Type}
  (prof : Profile Seg RegisterState) (a : Z) :
  a ∈ addresses_visited prof <->
  exists path b, In path (paths prof) /\ In b path
                 /\ entry b <= a < u64_wrap (entry b + Z.of_nat (size b)).
Proof.
  unfold addresses_visited.
  rewrite (fold_elem_gen _ (fun path a => exists b, In b path
             /\ entry b <= a < u64_wrap (entry b + Z.of_nat (size b)))).
  - split; [intros [H|H]; [set_solver|]|intros H; right];
      destruct H as [path [Hp [b [Hb Hr]]]] || destruct H as [path [b [Hp [Hb Hr]]]]; eauto 6.
  - intros path S x.
    rewrite (fold_elem_gen _ (fun b a => entry b <= a < u64_wrap (entry b + Z.of_nat (size b)))).
    + reflexivity.
    + intros b S' y. rewrite (WriteRatio.fold_union_elem (fun a => a)), <- (block_addresses_in b y).
      split; [intros [H|[i [Hi ->]]]; auto|intros [H|H]; eauto].
Qed.

Section Coverage.
Context {Seg RegisterState Genes Weights Sketch : Type}.
Variable sketch_insert : Z -> Sketch -> Sketch.
Variable sketch_query : Z -> Sketch -> F.f64.
Variable env : Env Weights.
Abbreviation Creature := (Creature Seg RegisterState Genes Weights).
Abbreviation ff := (code_coverage_ff sketch_insert sketch_query env).

Lemma insert_and_query_sketch (l : list Z) (s : Sketch) (f : F.f64) :
  fst (fold_left (fun '(s, f) a => let s' := sketch_insert a s in
                                   (s', F.add f (sketch_query a s'))) l (s, f))
  = fold_left (fun s a => sketch_insert a s) l s.
Proof. revert s f; induction l as [|a l IH]; intros s f; simpl; [reflexivity|apply IH]. Qed.

(** [code_coverage_ff] leaves a creature without a profile and the
    sketch as they are. For a profiled creature it keeps the creature's
    fields but the fitness, inserts each visited address once into the
    sketch, and sets a fresh [Weighted] with the configured weights and
    exactly the four scores [code_coverage] ([1 - visited / code size]),
    [code_frequency] (1 when nothing was visited), [gadgets_executed]
    (the number of runs of the profile) and [mem_ratio_written]
    ([1 - mem_write_ratio]). *)
Theorem code_coverage_ff_spec (c : Creature) (sk : Sketch) :
  (profile c = None -> ff c sk = (c, sk))
  /\ forall prof, profile c = Some prof ->
     let visited := addresses_visited prof in
     exists w,
       ff c sk = (set_fitness c w, fold_left (fun s a => sketch_insert a s) (elements visited) sk)
       /\ weights w = fitness_weights env
       /\ dom (scores w) = ({[ "code_coverage"; "code_frequency"; "gadgets_executed";
                               "mem_ratio_written" ]} : gset string)
       /\ scores w !! "code_coverage"
          = Some (F.sub F.one (F.div (F.of_nat (stdpp.base.size visited))
                                     (F.of_nat (size_of_executable_memory env))))
       /\ scores w !! "gadgets_executed" = Some (F.of_nat (length (gadgets_executed prof)))
       /\ scores w !! "mem_ratio_written"
          = Some (F.sub F.one (mem_write_ratio (size_of_writeable_memory env) prof))
       /\ (visited = ∅ -> scores w !! "code_frequency" = Some F.one).
Proof.
  split.
  - intros H. unfold code_coverage_ff. rewrite H. reflexivity.
  - intros prof Hp visited. unfold code_coverage_ff. rewrite Hp. fold visited.
    pose proof (insert_and_query_sketch (elements visited) sk F.zero) as Hs.
    unfold insert_and_query.
    destruct (fold_left _ (elements visited) (sk, F.zero)) as [sk' freq] eqn:E.
    simpl in Hs. rewrite Hs.
    eexists. split; [reflexivity|]. unfold Weighted_insert, Weighted_new; simpl.
    split; [reflexivity|]. split.
    { rewrite !dom_insert_L, dom_empty_L. set_solver. }
    split; [simplify_map_eq; reflexivity|].
    split; [simplify_map_eq; reflexivity|].
    split; [simplify_map_eq; reflexivity|].
    intros Hv. rewrite Hv, size_empty. simplify_map_eq. reflexivity.
Qed.
End Coverage.

Section Pipeline.
Context {Seg RegisterState Genes Weights Sketch : Type}.
Abbreviation Creature := (Creature Seg RegisterState Genes Weights).
Abbreviation Profile := (Profile Seg RegisterState).
Variable execute_batch : list Creature -> option (list (Creature * Profile)).
Variable record_genetic_frequency : Creature -> Sketch -> Sketch.
Variable sketch_insert : Z -> Sketch -> Sketch.
Variable sketch_query : Z -> Sketch -> F.f64.
Variable env : Env Weights.
Abbreviation ff := (code_coverage_ff sketch_insert sketch_query env).

Lemma score_all_forall (P Q : Creature -> Prop) (f : Creature -> Sketch -> Creature * Sketch)
  (Hf : forall c s, P c -> Q (fst (f c s))) (cs : list Creature) (s : Sketch) :
  Forall P cs -> Forall Q (fst (score_all f cs s)).
Proof.
  intros HP. revert s; induction HP as [|c cs Hc _ IH]; intros s; simpl; [constructor|].
  specialize (Hf c s Hc). destruct (f c s) as [c' s1].
  specialize (IH s1). destruct (score_all f cs s1) as [rest s2]. simpl in *.
  constructor; assumption.
Qed.

(** With the coverage fitness function, every creature [eval_pipeline]
    returns carries a profile and a fitness, and there are as many as
    execution results plus already-profiled inputs. *)
Theorem eval_pipeline_all_scored (ev : Evaluator Seg RegisterState Genes Weights Sketch)
  (inbound out : list Creature) (ev' : Evaluator Seg RegisterState Genes Weights Sketch) :
  eval_pipeline execute_batch record_genetic_frequency ff ev inbound = Some (out, ev') ->
  exists results,
    execute_batch (EvalFacts.fresh_of inbound) = Some results
    /\ length out = (length results + length (List.filter has_profile inbound))%nat
    /\ Forall (fun c => is_Some (profile c) /\ is_Some (fitness c)) out.
Proof.
  intros H. destruct (EvalFacts.eval_pipeline_inv execute_batch record_genetic_frequency ff
                        ev inbound out ev' H) as (results & Hex & Hout & _ & _).
  exists results. split; [exact Hex|]. subst out. split.
  - rewrite EvalFacts.score_all_length. unfold EvalFacts.combined_of.
    rewrite length_app, length_map. reflexivity.
  - apply (score_all_forall (fun c => is_Some (profile c))).
    + intros c s [p Hp]. destruct (EvalFacts.code_coverage_ff_keeps sketch_insert sketch_query
                                     env c s p Hp) as (H1 & _ & _ & H4).
      rewrite H1. split; [eexists; reflexivity|exact H4].
    + unfold EvalFacts.combined_of. apply Forall_app. split.
      * apply Forall_forall. intros c Hc. apply list_elem_of_In, in_map_iff in Hc as [[c0 p] [<- _]].
        simpl. eexists; reflexivity.
      * apply Forall_forall. intros c Hc. apply list_elem_of_In, filter_In in Hc as [_ Hc].
        unfold has_profile in Hc. destruct (profile c); [eexists; reflexivity|discriminate].
Qed.
End Pipeline.

Section Witnesses.
Import ConcreteRoper.

Lemma eval_pipeline_all_scored_witness :
  let inbound := [fresh_c; old_c P1] in
  c_pipeline (exec_all P1) ev0 inbound = Some (fst coverage_result, snd coverage_result)
  /\ exists results,
       exec_all P1 (EvalFacts.fresh_of inbound) = Some results
       /\ length (fst coverage_result)
          = (length results + length (List.filter has_profile inbound))%nat
       /\ Forall (fun c => is_Some (profile c) /\ is_Some (fitness c)) (fst coverage_result).
Proof.
  intros inbound. split; [vm_compute; reflexivity|].
  apply (eval_pipeline_all_scored (exec_all P1) spec_record_frequency
           exact_insert exact_query env0 ev0 inbound (fst coverage_result) (snd coverage_result)).
  vm_compute. reflexivity.
Defined.
End Witnesses.

End RoperMore.

(* ------------------------------------------------------------------ *)
(** ** Further properties of [examples/hello_world.rs] *)

Module HelloMore.
Import HelloWorld EvolveFacts.

Abbreviation fit_leq := (fun a b : Genome => fit_le (fitness a) (fitness b) = true).

Lemma fit_le_total (a b : option Fitness) : fit_le a b = false -> fit_le b a = true.
Proof.
  destruct a as [x|], b as [y|]; simpl; try discriminate; auto.
  intros H. apply Nat.leb_gt in H. apply Nat.leb_le. lia.
Qed.

Lemma fit_le_trans (a b c : option Fitness) :
  fit_le a b = true -> fit_le b c = true -> fit_le a c = true.
Proof.
  destruct a as [x|], b as [y|], c as [z|]; simpl; try discriminate; auto.
  rewrite !Nat.leb_le. lia.
Qed.

Lemma insert_sorted_hd (h g : Genome) (l : list Genome) :
  HdRel fit_leq h l -> fit_leq h g -> HdRel fit_leq h (insert_sorted g l).
Proof.
  intros Hl Hg. destruct l as [|x t]; simpl; [constructor; exact Hg|].
  destruct (fit_le (fitness x) (fitness g)); constructor; [inversion Hl; assumption|exact Hg].
Qed.

Lemma insert_sorted_sorted (g : Genome) (l : list Genome) :
  Sorted fit_leq l -> Sorted fit_leq (insert_sorted g l).
Proof.
  induction 1 as [|h t Ht IH Hh]; simpl; [repeat constructor|].
  destruct (fit_le (fitness h) (fitness g)) eqn:E.
  - constructor; [exact IH|]. apply insert_sorted_hd; assumption.
  - constructor; [constructor; assumption|]. constructor. apply fit_le_total, E.
Qed.

(** [combatants.sort_by(|a, b| a.fitness.cmp(&b.fitness))] orders the
    combatants by fitness ([None] first) without losing or adding any,
    so [combatants[0]], the one [update_best] is offered, is the one with
    the least fitness. *)
Theorem sort_by_fitness_sorted (l : list Genome) :
  Sorted fit_leq (sort_by_fitness l)
  /\ Permutation (sort_by_fitness l) l
  /\ (forall c0 rest, sort_by_fitness l = c0 :: rest ->
        Forall (fun c => fit_le (fitness c0) (fitness c) = true) rest).
Proof.
  assert (Hs : Sorted fit_leq (sort_by_fitness l)).
  { unfold sort_by_fitness.
    assert (H : forall acc, Sorted fit_leq acc ->
                  Sorted fit_leq (fold_left (fun acc g => insert_sorted g acc) l acc)).
    { induction l as [|g l IH]; intros acc Hacc; simpl; [exact Hacc|].
      apply IH, insert_sorted_sorted, Hacc. }
    apply H. constructor. }
  split; [exact Hs|]. split; [apply sort_by_fitness_perm|].
  intros c0 rest Hl. rewrite Hl in Hs.
  apply Sorted_StronglySorted in Hs; [|intros x y z; apply fit_le_trans].
  inversion Hs. assumption.
Qed.

Section Gen.
Context {R : Type}.
Variable gen_usize : R -> nat * R.
Variable gen_f32 : R -> Q * R.
Variable sample_alphanumeric : R -> ascii * R.
Variable gen_printable : R -> ascii * R.

(** [Genome::crossover] panics (a remainder by zero) when either parent
    has no genes. Otherwise it cuts the mother at [i < len] and the
    father at [j < len], and returns the two unscored children
    [m1 ++ f2] and [m2 ++ f1]; together they hold exactly the parents'
    genes. *)
Theorem crossover_spec (m f : Genome) (s : St R) :
  ((genes m = [] \/ genes f = []) -> exists msg s', crossover gen_usize m f s = Panic msg s')
  /\ (nonempty m -> nonempty f ->
      exists i j s', (i < length (genes m))%nat /\ (j < length (genes f))%nat
        /\ crossover gen_usize m f s
           = Done [ {| genes := take i (genes m) ++ drop j (genes f); fitness := None |};
                    {| genes := drop i (genes m) ++ take j (genes f); fitness := None |} ] s'
        /\ Permutation (genes m ++ genes f)
             ((take i (genes m) ++ drop j (genes f)) ++ (drop i (genes m) ++ take j (genes f)))).
Proof.
  split.
  - intros Hz. unfold crossover, gen_index, bind, with_rng, panic. simpl.
    destruct (genes m) as [|a l] eqn:Hm; simpl.
    + eexists _, _; reflexivity.
    + destruct Hz as [Hz|Hz]; [discriminate|]. rewrite Hz. simpl. eexists _, _; reflexivity.
  - intros Hm Hf.
    assert (Hlm : length (genes m) <> 0%nat) by (unfold nonempty in *; destruct (genes m); [contradiction|discriminate]).
    assert (Hlf : length (genes f) <> 0%nat) by (unfold nonempty in *; destruct (genes f); [contradiction|discriminate]).
    unfold crossover.
    destruct (gen_index_done gen_usize _ s Hlm) as (i & s1 & Hi & Hilt).
    rewrite (bind_done _ _ _ _ _ Hi).
    destruct (gen_index_done gen_usize _ s1 Hlf) as (j & s2 & Hj & Hjlt).
    rewrite (bind_done _ _ _ _ _ Hj).
    exists i, j, s2. split; [exact Hilt|]. split; [exact Hjlt|]. split; [reflexivity|].
    transitivity ((take i (genes m) ++ drop i (genes m)) ++ (take j (genes f) ++ drop j (genes f)));
      [rewrite !take_drop; reflexivity|].
    generalize (take i (genes m)) (drop i (genes m)) (take j (genes f)) (drop j (genes f)).
    intros A B C D. rewrite <- !app_assoc. apply Permutation_app_head.
    rewrite app_assoc. apply Permutation_app_comm.
Qed.

(** [Genome::mutate] panics (a remainder by zero) on a genome without
    genes; otherwise it overwrites exactly one position [i < len] with
    the printable character drawn, keeping the length and the cached
    fitness. *)
Theorem mutate_spec (g : Genome) (s : St R) :
  (genes g = [] -> exists msg s', mutate gen_usize gen_printable g s = Panic msg s')
  /\ (nonempty g ->
      exists i c s', (i < length (genes g))%nat
        /\ mutate gen_usize gen_printable g s
           = Done {| genes := <[i := c]> (genes g); fitness := fitness g |} s'
        /\ length (<[i := c]> (genes g)) = length (genes g)
        /\ <[i := c]> (genes g) !! i = Some c
        /\ (forall k, k <> i -> <[i := c]> (genes g) !! k = genes g !! k)).
Proof.
  split.
  - intros Hz. unfold mutate, gen_index, bind, with_rng, panic. rewrite Hz. simpl.
    eexists _, _; reflexivity.
  - intros Hg.
    assert (Hl : length (genes g) <> 0%nat) by (unfold nonempty in *; destruct (genes g); [contradiction|discriminate]).
    unfold mutate.
    destruct (gen_index_done gen_usize _ s Hl) as (i & s1 & Hi & Hilt).
    rewrite (bind_done _ _ _ _ _ Hi).
    exists i, (fst (gen_printable (rng s1))),
      {| rng := snd (gen_printable (rng s1)); log := log s1; observed := observed s1 |}.
    split; [exact Hilt|]. split; [reflexivity|].
    split; [apply length_insert|]. split.
    + apply list_lookup_insert_eq. exact Hilt.
    + intros k Hk. apply list_lookup_insert_ne. congruence.
Qed.

Lemma mutate_each_shape (rate : Q) (cs : list Genome) (s : St R) :
  Forall nonempty cs ->
  exists cs' s', mutate_each gen_usize gen_f32 gen_printable rate cs s = Done cs' s'
    /\ Forall2 (fun c c' => length (genes c') = length (genes c) /\ fitness c' = fitness c) cs cs'.
Proof.
  revert s; induction cs as [|c cs IH]; intros s Hcs.
  - eexists _, _. split; [reflexivity|constructor].
  - inversion Hcs as [|? ? Hc Hrest]; subst.
    simpl. unfold bind at 1, with_rng. simpl.
    set (s1 := {| rng := snd (gen_f32 (rng s)); log := log s; observed := observed s |}).
    destruct (negb (Qle_bool rate (fst (gen_f32 (rng s))))).
    + destruct (proj2 (mutate_spec c s1) Hc) as (i & ch & s2 & _ & Hm & Hlen & _).
      rewrite (bind_done _ _ _ _ _ Hm).
      destruct (IH s2 Hrest) as (cs' & s3 & He & HF).
      rewrite (bind_done _ _ _ _ _ He). eexists _, _. split; [reflexivity|].
      constructor; [split; [exact Hlen|reflexivity]|exact HF].
    + rewrite (bind_done (ret c) _ s1 c s1 eq_refl).
      destruct (IH s1 Hrest) as (cs' & s3 & He & HF).
      rewrite (bind_done _ _ _ _ _ He). eexists _, _. split; [reflexivity|].
      constructor; [split; reflexivity|exact HF].
Qed.

(** [Genome::mate] of two parents with genes yields two unscored
    children whose lengths add up to the parents' (mutation only
    overwrites a character). *)
Theorem mate_spec (m f : Genome) (cfg : Config) (s : St R) :
  nonempty m -> nonempty f ->
  exists k1 k2 s', mate gen_usize gen_f32 gen_printable m f cfg s = Done [k1; k2] s'
    /\ fitness k1 = None /\ fitness k2 = None
    /\ (length (genes k1) + length (genes k2) = length (genes m) + length (genes f))%nat.
Proof.
  intros Hm Hf. unfold mate.
  destruct (proj2 (crossover_spec m f s) Hm Hf) as (i & j & s1 & Hi & Hj & Hc & _).
  rewrite (bind_done _ _ _ _ _ Hc).
  assert (Hne : Forall nonempty [ {| genes := take i (genes m) ++ drop j (genes f); fitness := None |};
                                  {| genes := drop i (genes m) ++ take j (genes f); fitness := None |} ]).
  { repeat constructor; unfold nonempty; simpl; intros H;
      apply (f_equal length) in H; rewrite length_app, length_take, length_drop in H;
      simpl in H; lia. }
  destruct (mutate_each_shape (mut_rate cfg) _ s1 Hne) as (cs' & s2 & He & HF).
  inversion HF as [|? k1 ? ? [Hl1 Hf1] HF1]; subst.
  inversion HF1 as [|? k2 ? ? [Hl2 Hf2] HF2]; subst.
  inversion HF2; subst.
  exists k1, k2, s2. split; [exact He|]. simpl in *.
  split; [exact Hf1|]. split; [exact Hf2|].
  rewrite Hl1, Hl2, !length_app, !length_take, !length_drop. lia.
Qed.

Lemma sample_genes_len (len : nat) (s : St R) :
  exists l s', sample_genes sample_alphanumeric len s = Done l s' /\ length l = len.
Proof.
  revert s; induction len as [|len IH]; intros s; [eexists _, _; split; reflexivity|].
  simpl. unfold bind at 1. simpl.
  destruct (IH {| rng := snd (sample_alphanumeric (rng s)); log := log s;
                  observed := observed s |}) as (l & s' & H & Hl).
  unfold bind. rewrite H. eexists _, _. split; [reflexivity|]. simpl. lia.
Qed.

(** [Epoch::new] never fails: it starts from [pop_size] unscored genomes
    of [init_len] genes each, with no champion at generation 0. *)
Theorem Epoch_new_spec (cfg : Config) (s : St R) :
  exists e s', Epoch_new sample_alphanumeric cfg s = Done e s'
    /\ length (population e) = pop_size cfg
    /\ Forall (fun g => length (genes g) = init_len cfg /\ fitness g = None) (population e)
    /\ config e = cfg /\ best e = None /\ iteration e = 0%nat.
Proof.
  unfold Epoch_new.
  assert (H : forall n s, exists p s', sample_population sample_alphanumeric n (init_len cfg) s
                                       = Done p s' /\ length p = n
                                       /\ Forall (fun g => length (genes g) = init_len cfg
                                                           /\ fitness g = None) p).
  { induction n as [|n IH]; intros s0; [eexists _, _; split; [reflexivity|split; constructor]|].
    simpl. destruct (sample_genes_len (init_len cfg) s0) as (l & s1 & H1 & Hl).
    unfold Genome_new. unfold bind at 1 2. rewrite H1. cbn [ret].
    destruct (IH s1) as (p & s2 & H2 & Hp & HF). unfold bind. rewrite H2.
    eexists _, _. split; [reflexivity|]. split; [simpl; lia|constructor; auto]. }
  destruct (H (pop_size cfg) s) as (p & s' & Hp & Hl & HF).
  unfold bind. rewrite Hp. eexists _, _. split; [reflexivity|]. simpl. auto.
Qed.
End Gen.


Lemma bind_done_inv {R A B} (m : M R A) (k : A -> M R B) (s : St R) b s' :
  bind m k s = Done b s' -> exists a s1, m s = Done a s1 /\ k a s1 = Done b s'.
Proof. unfold bind. destruct (m s) as [a s1|msg s1]; [eauto|discriminate]. Qed.

Lemma vec_pop_some {A} (l l' : list A) (x : A) : vec_pop l = Some (l', x) -> l = l' ++ [x].
Proof.
  destruct l as [|y l _] using rev_ind; [discriminate|].
  rewrite vec_pop_snoc. intros H; injection H as -> ->. reflexivity.
Qed.

Lemma requeue_forall (P : Genome -> Prop) (fuel : nat) (n : Z) (cs pop : list Genome) :
  Forall P cs -> Forall P pop ->
  Forall P (fst (requeue fuel n cs pop)) /\ Forall P (snd (requeue fuel n cs pop)).
Proof.
  revert n cs pop; induction fuel as [|f IH]; intros n cs pop Hc Hp; simpl; [auto|].
  destruct (Z.leb n 0); [simpl; auto|].
  destruct (vec_pop cs) as [[cs' c]|] eqn:E; [|simpl; auto].
  apply vec_pop_some in E. subst cs. apply Forall_app in Hc as [Hc1 Hc2].
  apply IH; [exact Hc1|apply Forall_app; auto].
Qed.

Section EvolveDone.
Context {R : Type}.
Variable gen_usize : R -> nat * R.
Variable gen_f32 : R -> Q * R.
Variable gen_printable : R -> ascii * R.
Variable shuffle : list Genome -> R -> list Genome * R.
Variable levenshtein : list ascii -> list ascii -> nat.

Lemma evolve_done_inv (e e' : Epoch) (s s' : St R) :
  evolve gen_usize gen_f32 gen_printable shuffle levenshtein e s = Done e' s' ->
  let cfg := config e in
  let shuffled := fst (shuffle (population e) (rng s)) in
  let k := (length shuffled - tournament_size cfg)%nat in
  exists c0 rest best' (s1 : St R) cs pop cs' mother fth kids (s2 : St R),
    sort_by_fitness (map (evaluate levenshtein (target cfg)) (rev (drop k shuffled))) = c0 :: rest
    /\ update_best (best e) c0 s1 = Done best' s2
    /\ requeue (length (pop_n (num_offspring cfg) (c0 :: rest)))
         (usize_wrapping_sub (tournament_size cfg) (num_offspring cfg + 2))
         (pop_n (num_offspring cfg) (c0 :: rest)) (take k shuffled) = (cs, pop)
    /\ vec_pop cs = Some (cs', mother) /\ (exists cs'', vec_pop cs' = Some (cs'', fth))
    /\ (exists s3, mate gen_usize gen_f32 gen_printable mother fth cfg s3 = Done kids s')
    /\ e' = {| population := pop ++ [mother; fth] ++ kids; config := cfg; best := best';
               iteration := usize_wrapping_add (iteration e) 1 |}.
Proof.
  intros H cfg shuffled k. unfold evolve in H.
  apply bind_done_inv in H as (p0 & s0 & Hp0 & H).
  unfold with_rng in Hp0. injection Hp0 as <- <-.
  apply bind_done_inv in H as (drawn & s1 & Hd & H).
  destruct (draw_spec levenshtein (target (config e)) (tournament_size (config e))
              (fst (shuffle (population e) (rng s))) [] 
              {| rng := snd (shuffle (population e) (rng s)); log := log s; observed := observed s |})
    as (s1' & Hd' & _ & _).
  rewrite Hd' in Hd. injection Hd as <- <-. simpl app in H.
  apply bind_done_inv in H as (best' & s2 & Hb & H).
  destruct (sort_by_fitness _) as [|c0 rest] eqn:Hs; [discriminate|].
  destruct (requeue _ _ _ _) as [cs pop] eqn:Hrq.
  apply bind_done_inv in H as ([cs' mother] & s3 & Hm & H).
  apply bind_done_inv in H as ([cs'' fth] & s4 & Hf & H).
  apply bind_done_inv in H as (kids & s5 & Hk & H).
  unfold ret in H. injection H as <- <-.
  destruct (vec_pop cs) as [[a b]|] eqn:E1; [|discriminate]. injection Hm as -> -> ->.
  destruct (vec_pop cs') as [[a b]|] eqn:E2; [|discriminate]. injection Hf as -> -> ->.
  do 11 eexists.
  split; [reflexivity|]. split; [exact Hb|]. split; [exact Hrq|]. split; [exact E1|]. split; [eauto|]. split; [eauto|reflexivity].
Qed.
End EvolveDone.

Section EvolveScores.
Context {R : Type}.
Variable gen_usize : R -> nat * R.
Variable gen_f32 : R -> Q * R.
Variable gen_printable : R -> ascii * R.
Variable shuffle : list Genome -> R -> list Genome * R.
Variable levenshtein : list ascii -> list ascii -> nat.
Hypothesis shuffle_perm : forall l r, Permutation (fst (shuffle l r)) l.

Lemma evaluate_scored (tgt : list ascii) (g : Genome) :
  score_valid levenshtein tgt g -> fitness (evaluate levenshtein tgt g) = Some (levenshtein (genes g) tgt)
                  /\ genes (evaluate levenshtein tgt g) = genes g.
Proof. unfold evaluate. intros [H|H]; rewrite H; simpl; auto. Qed.

Lemma update_best_cases (b : option Genome) (c : Genome) (s : St R) b' s' :
  update_best b c s = Done b' s' ->
  (b' = Some c /\ (b = None \/ exists x, b = Some x /\ fitter_than c x = true))
  \/ (b' = b /\ exists x, b = Some x /\ fitter_than c x = false).
Proof.
  unfold update_best, bind, log_msg, ret. destruct b as [x|].
  - destruct (fitter_than c x) eqn:E; intros H; injection H as <- _.
    + left. split; [reflexivity|right; exists x; auto].
    + right. split; [reflexivity|exists x; auto].
  - intros H; injection H as <- _. left. split; [reflexivity|left; reflexivity].
Qed.

Lemma mutate_fitness (g g' : Genome) (s s' : St R) :
  mutate gen_usize gen_printable g s = Done g' s' -> fitness g' = fitness g.
Proof.
  destruct (genes g) eqn:Hg.
  - destruct (proj1 (mutate_spec gen_usize gen_printable g s) Hg) as (msg & s1 & H). rewrite H; discriminate.
  - assert (Hne : nonempty g) by (unfold nonempty; congruence).
    destruct (proj2 (mutate_spec gen_usize gen_printable g s) Hne) as (i & c & s1 & _ & H & _).
    rewrite H. intros E; injection E as <- _. reflexivity.
Qed.

Lemma mutate_each_fitness (rate : Q) (cs cs' : list Genome) (s s' : St R) :
  mutate_each gen_usize gen_f32 gen_printable rate cs s = Done cs' s' ->
  Forall2 (fun c c' => fitness c' = fitness c) cs cs'.
Proof.
  revert s s' cs'; induction cs as [|c cs IH]; intros s s' cs' H.
  - simpl in H. injection H as <- _. constructor.
  - simpl in H. apply bind_done_inv in H as (u & s1 & _ & H).
    apply bind_done_inv in H as (c' & s2 & Hc & H).
    apply bind_done_inv in H as (rest & s3 & Hr & H).
    injection H as <- _. constructor; [|eapply IH; exact Hr].
    destruct (negb _); [eapply mutate_fitness; exact Hc|injection Hc as <- _; reflexivity].
Qed.

Lemma mate_fitness (m f : Genome) (cfg : Config) (kids : list Genome) (s s' : St R) :
  mate gen_usize gen_f32 gen_printable m f cfg s = Done kids s' ->
  Forall (fun k => fitness k = None) kids.
Proof.
  unfold mate. intros H. apply bind_done_inv in H as (cs & s1 & Hc & H).
  apply mutate_each_fitness in H.
  destruct (genes m) eqn:Hm.
  { destruct (proj1 (crossover_spec gen_usize m f s) (or_introl Hm)) as (? & ? & E). congruence. }
  destruct (genes f) eqn:Hf.
  { destruct (proj1 (crossover_spec gen_usize m f s) (or_intror Hf)) as (? & ? & E). congruence. }
  assert (Hnm : nonempty m) by (unfold nonempty; congruence).
  assert (Hnf : nonempty f) by (unfold nonempty; congruence).
  destruct (proj2 (crossover_spec gen_usize m f s) Hnm Hnf) as (i & j & s2 & _ & _ & E & _).
  rewrite E in Hc. injection Hc as <- _.
  inversion H as [|? ? ? ? H1 H']; subst. inversion H' as [|? ? ? ? H2 H'']; subst.
  inversion H''; subst. repeat constructor; [rewrite H1|rewrite H2]; reflexivity.
Qed.

(** [Epoch::evolve] never stores a wrong score: if every cached
    fitness of the population is unset or the Levenshtein distance of
    its genes to the target, and the champion has been scored, the
    same holds after a generation (shuffling, scoring the combatants,
    requeueing them, and adding children whose fitness is unset), and
    the configuration is unchanged. *)
Theorem evolve_keeps_scores (e e' : Epoch) (s s' : St R) :
  epoch_scores_valid levenshtein e ->
  evolve gen_usize gen_f32 gen_printable shuffle levenshtein e s = Done e' s' ->
  epoch_scores_valid levenshtein e' /\ config e' = config e.
Proof.
  intros [Hpop Hbest] H.
  destruct (evolve_done_inv gen_usize gen_f32 gen_printable shuffle levenshtein e e' s s' H)
    as (c0 & rest & best' & s1 & cs & pop & cs' & mother & fth & kids & s2 &
        Hs & Hb & Hrq & Hm & [cs'' Hf] & [s3 Hk] & ->).
  set (tgt := target (config e)) in *.
  set (shuffled := fst (shuffle (population e) (rng s))) in *.
  set (k := (length shuffled - tournament_size (config e))%nat) in *.
  assert (Hsh : Forall (score_valid levenshtein tgt) shuffled)
    by (eapply Permutation_Forall; [symmetry; apply shuffle_perm|exact Hpop]).
  assert (Hev : Forall (fun g => fitness g = Some (levenshtein (genes g) tgt))
                       (map (evaluate levenshtein tgt) (rev (drop k shuffled)))).
  { apply Forall_map. apply Forall_rev. apply Forall_drop.
    eapply Forall_impl; [exact Hsh|]. intros x Hx.
    destruct (evaluate_scored tgt x Hx) as [-> ->]. reflexivity. }
  assert (Hsorted : Forall (fun g => fitness g = Some (levenshtein (genes g) tgt)) (c0 :: rest)).
  { rewrite <- Hs. eapply Permutation_Forall; [symmetry; apply sort_by_fitness_perm|exact Hev]. }
  assert (Hcomb : Forall (score_valid levenshtein tgt) (pop_n (num_offspring (config e)) (c0 :: rest))).
  { rewrite pop_n_take. apply Forall_take. eapply Forall_impl; [exact Hsorted|].
    intros x Hx; right; exact Hx. }
  assert (Htk : Forall (score_valid levenshtein tgt) (take k shuffled)) by (apply Forall_take; exact Hsh).
  destruct (requeue_forall (score_valid levenshtein tgt) (length (pop_n (num_offspring (config e)) (c0 :: rest)))
              (usize_wrapping_sub (tournament_size (config e)) (num_offspring (config e) + 2))
              _ _ Hcomb Htk) as [Hcs Hpop'].
  rewrite Hrq in Hcs, Hpop'. simpl in Hcs, Hpop'.
  apply vec_pop_some in Hm. apply vec_pop_some in Hf. subst cs cs'.
  apply Forall_app in Hcs as [Hcs Hmo]. apply Forall_app in Hcs as [_ Hfa].
  split; [|reflexivity]. split.
  - simpl. fold tgt. apply Forall_app; split; [exact Hpop'|].
    constructor; [inversion Hmo; assumption|]. constructor; [inversion Hfa; assumption|].
    eapply Forall_impl; [eapply mate_fitness; exact Hk|]. intros x Hx; left; exact Hx.
  - simpl. fold tgt. intros b Hb'.
    destruct (update_best_cases _ _ _ _ _ Hb) as [[-> _]|[-> _]].
    + injection Hb' as <-. inversion Hsorted; assumption.
    + apply Hbest, Hb'.
Qed.

Lemma evaluate_is_some (tgt : list ascii) (g : Genome) : is_Some (fitness (evaluate levenshtein tgt g)).
Proof. unfold evaluate. destruct (fitness g) eqn:E; simpl; [rewrite E|]; eexists; reflexivity. Qed.

(** After a completed [Epoch::evolve] there is always a champion, and it
    never gets worse: it is either the previous champion, or one of the
    generation's combatants (the last [tournament_size] candidates of the
    shuffled population, all drawn from the population), scored against
    the target and strictly fitter than the previous champion; in both
    cases its fitness is at most the previous champion's. *)
Theorem evolve_best (e e' : Epoch) (s s' : St R) :
  evolve gen_usize gen_f32 gen_printable shuffle levenshtein e s = Done e' s' ->
  let shuffled := fst (shuffle (population e) (rng s)) in
  let combatants := drop (length shuffled - tournament_size (config e)) shuffled in
  exists c, best e' = Some c
    /\ (best e = Some c
        \/ ((exists g0, In g0 combatants /\ In g0 (population e)
                       /\ c = evaluate levenshtein (target (config e)) g0)
            /\ is_Some (fitness c) /\ forall b, best e = Some b -> fitter_than c b = true))
    /\ (forall b x, best e = Some b -> fitness b = Some x -> exists y, fitness c = Some y /\ (y <= x)%nat).
Proof.
  intros H shuffled combatants.
  destruct (evolve_done_inv gen_usize gen_f32 gen_printable shuffle levenshtein e e' s s' H)
    as (c0 & rest & best' & s1 & cs & pop & cs' & mother & fth & kids & s2 &
        Hs & Hb & _ & _ & _ & _ & ->).
  simpl. fold shuffled combatants in Hs.
  assert (Hin : In c0 (map (evaluate levenshtein (target (config e))) (rev combatants))).
  { eapply Permutation_in; [apply sort_by_fitness_perm|]. rewrite Hs. left. reflexivity. }
  apply in_map_iff in Hin as (g0 & Hg0 & Hin). apply in_rev in Hin.
  assert (Hc0 : is_Some (fitness c0)) by (rewrite <- Hg0; apply evaluate_is_some).
  assert (Hpop : In g0 (population e)).
  { eapply Permutation_in; [apply (shuffle_perm (population e) (rng s))|].
    fold shuffled. rewrite <- (take_drop (length shuffled - tournament_size (config e)) shuffled).
    apply in_or_app. right. exact Hin. }
  destruct (update_best_cases _ _ _ _ _ Hb) as [[-> Hcase]|[-> (x & Hx & Hnf)]].
  - exists c0. split; [reflexivity|]. split.
    + right. split; [exists g0; auto|]. split; [exact Hc0|]. intros b Hb'.
      destruct Hcase as [Hn|(x & Hx & Hf)]; congruence.
    + intros b x Hb' Hfx. destruct Hcase as [Hn|(x' & Hx & Hf)]; [congruence|].
      rewrite Hb' in Hx. injection Hx as <-. unfold fitter_than in Hf. rewrite Hfx in Hf.
      destruct (fitness c0) as [y|]; [|discriminate]. apply Nat.ltb_lt in Hf.
      exists y. split; [reflexivity|lia].
  - exists x. split; [exact Hx|]. split; [left; exact Hx|].
    intros b y Hb' Hfy. rewrite Hb' in Hx. injection Hx as ->. exists y. split; [exact Hfy|lia].
Qed.

Lemma run_loop_champion (gens : nat) (w : Epoch) (s s' : St R) champ :
  epoch_scores_valid levenshtein w ->
  run_loop gen_usize gen_f32 gen_printable shuffle levenshtein gens w s = Done (Some champ) s' ->
  fitness champ = Some 0%nat /\ levenshtein (genes champ) (target (config w)) = 0%nat.
Proof.
  revert w s; induction gens as [|n IH]; intros w s Hw H; simpl in H; [discriminate|].
  apply bind_done_inv in H as (w1 & s1 & He & H).
  destruct (evolve_keeps_scores w w1 s s1 Hw He) as [Hw1 Hcfg].
  destruct (best w1) as [c|] eqn:Hb.
  - destruct (fitness c) as [[|k]|] eqn:Hf.
    + injection H as <- _. split; [exact Hf|].
      rewrite <- Hcfg. pose proof (proj2 Hw1 c Hb) as Hc. rewrite Hf in Hc. congruence.
    + rewrite <- Hcfg. exact (IH w1 s1 Hw1 H).
    + rewrite <- Hcfg. exact (IH w1 s1 Hw1 H).
  - rewrite <- Hcfg. exact (IH w1 s1 Hw1 H).
Qed.
End EvolveScores.

Section Run.
Context {R : Type}.
Variable gen_usize : R -> nat * R.
Variable gen_f32 : R -> Q * R.
Variable sample_alphanumeric : R -> ascii * R.
Variable gen_printable : R -> ascii * R.
Variable shuffle : list Genome -> R -> list Genome * R.
Variable levenshtein : list ascii -> list ascii -> nat.
Hypothesis shuffle_perm : forall l r, Permutation (fst (shuffle l r)) l.

(** [run] only ever returns a genome whose fitness is [Some(0)], and
    that fitness is its true Levenshtein distance to the target: the
    returned genome is at distance 0 from [config.target]. *)
Theorem run_champion (gens : nat) (cfg : Config) (s s' : St R) champ :
  run gen_usize gen_f32 sample_alphanumeric gen_printable shuffle levenshtein gens cfg s
  = Done (Some champ) s' ->
  fitness champ = Some 0%nat /\ levenshtein (genes champ) (target cfg) = 0%nat.
Proof.
  unfold run. intros H. apply bind_done_inv in H as (w & s1 & Hw & H).
  destruct (Epoch_new_spec sample_alphanumeric cfg s) as (e & s2 & He & _ & HF & Hc & Hb & _).
  rewrite Hw in He. injection He as <- <-.
  rewrite <- Hc.
  eapply (run_loop_champion gen_usize gen_f32 gen_printable shuffle levenshtein shuffle_perm); [|exact H].
  split.
  - eapply Forall_impl; [exact HF|]. intros x [_ Hx]. left. exact Hx.
  - rewrite Hb. discriminate.
Qed.
End Run.



Lemma observer_loop_gen (w : Window) (rx : list Genome) :
  wsize w <> 0%nat -> length (frame w) = wsize w -> (wi w < wsize w)%nat ->
  exists w' rs, observer_loop w rx = Some (w', rs)
    /\ wsize w' = wsize w /\ length (frame w') = wsize w
    /\ wi w' = ((wi w + length rx) mod wsize w)%nat
    /\ length rs = ((wi w + length rx) / wsize w)%nat
    /\ (forall pre x, rx = pre ++ [x] -> frame w' !! wi w' = Some (Some x)).
Proof.
  revert w; induction rx as [|x rx IH]; intros w Hn Hl Hi.
  - exists w, []. simpl. rewrite Nat.add_0_r, Nat.mod_small, Nat.div_small by lia.
    repeat split; auto. intros pre y Hp. destruct pre; discriminate.
  - simpl. unfold window_insert. destruct (Nat.eqb_spec (wsize w) 0) as [|_]; [contradiction|].
    set (i := ((wi w + 1) mod wsize w)%nat).
    assert (Hilt : (i < wsize w)%nat) by (apply Nat.mod_upper_bound; exact Hn).
    set (w1 := {| frame := <[i := Some x]> (frame w); wi := i; wsize := wsize w |}).
    destruct (IH w1) as (w' & rs & Ho & Hs & Hl' & Hi' & Hr & Hlast);
      [exact Hn|simpl; rewrite length_insert; exact Hl|exact Hilt|].
    rewrite Ho. eexists _, _. split; [reflexivity|].
    simpl in Hs, Hi', Hr. rewrite Hs.
    split; [reflexivity|]. split; [exact Hl'|].
    split.
    { rewrite Hi'. subst i. rewrite Nat.add_mod_idemp_l by exact Hn. f_equal. lia. }
    split.
    { rewrite length_app, Hr. subst i.
      destruct (Nat.eq_dec (wi w + 1)%nat (wsize w)) as [He|He].
      - rewrite He, Nat.mod_same by exact Hn. simpl.
        replace (wi w + S (length rx))%nat with (1 * wsize w + length rx)%nat by lia.
        rewrite Nat.div_add_l by exact Hn. reflexivity.
      - rewrite (Nat.mod_small (wi w + 1)%nat) by lia.
        destruct (Nat.eqb_spec (wi w + 1)%nat 0%nat) as [|_]; [lia|]. simpl.
        f_equal. lia. }
    intros pre y Hp. destruct pre as [|p pre].
    + injection Hp as -> ->. simpl in Ho. injection Ho as <- _. simpl.
      apply list_lookup_insert_eq. rewrite Hl. exact Hilt.
    + injection Hp as _ Hp. exact (Hlast pre y Hp).
Qed.

(** [Window::new] fails exactly on a window size of 0. Otherwise the
    observer thread never fails: after receiving [k] genomes the window
    keeps its size and a frame of that size, its index is [k mod n],
    it has logged [k / n] averages (one each time the index wraps to
    0), and the slot at the index holds the last genome received. *)
Theorem Window_observer_spec (n : nat) (rx : list Genome) :
  (Window_new n = None <-> n = 0%nat)
  /\ (n <> 0%nat ->
      exists w0 w rs, Window_new n = Some w0 /\ observer_loop w0 rx = Some (w, rs)
        /\ wsize w = n /\ length (frame w) = n
        /\ wi w = (length rx mod n)%nat /\ length rs = (length rx / n)%nat
        /\ (forall pre x, rx = pre ++ [x] -> frame w !! wi w = Some (Some x))).
Proof.
  split.
  - unfold Window_new. destruct (Nat.eqb_spec n 0); split; congruence.
  - intros Hn. unfold Window_new. destruct (Nat.eqb_spec n 0) as [|_]; [contradiction|].
    destruct (observer_loop_gen {| frame := repeat None n; wi := 0; wsize := n |} rx)
      as (w & rs & Ho & Hs & Hl & Hi & Hr & Hlast);
      [exact Hn|simpl; apply repeat_length|simpl; lia|].
    exists {| frame := repeat None n; wi := 0; wsize := n |}, w, rs. simpl in *.
    repeat split; auto.
Qed.

Section Witnesses.
Import ConcreteHW.

Lemma run_champion_witness :
  exists champ s', run c_gen_usize c_gen_f32 c_alnum c_printable c_shuffle levenshtein 1 cfg_aaaaa st0 = Done (Some champ) s'
    /\ fitness champ = Some 0%nat /\ levenshtein (genes champ) (target cfg_aaaaa) = 0%nat.
Proof.
  destruct (run c_gen_usize c_gen_f32 c_alnum c_printable c_shuffle levenshtein 1 cfg_aaaaa st0) as [[champ|] s'|msg s'] eqn:E;
    [|vm_compute in E; discriminate E|vm_compute in E; discriminate E].
  exists champ, s'. split; [reflexivity|].
  exact (run_champion c_gen_usize c_gen_f32 c_alnum c_printable c_shuffle levenshtein
           c_shuffle_perm 1 cfg_aaaaa st0 s' champ E).
Defined.

Lemma evolve_best_witness :
  exists e' s', evolve c_gen_usize c_gen_f32 c_printable c_shuffle levenshtein (epoch 5 2 pop5) st0 = Done e' s'
    /\ let shuffled := fst (c_shuffle pop5 (rng st0)) in
       let combatants := drop (length shuffled - 5) shuffled in
       exists c, best e' = Some c
    /\ (best (epoch 5 2 pop5) = Some c
        \/ ((exists g0, In g0 combatants /\ In g0 pop5 /\ c = evaluate levenshtein (target (cfg 5 2)) g0)
            /\ is_Some (fitness c) /\ forall b, best (epoch 5 2 pop5) = Some b -> fitter_than c b = true))
    /\ (forall b x, best (epoch 5 2 pop5) = Some b -> fitness b = Some x -> exists y, fitness c = Some y /\ (y <= x)%nat).
Proof.
  destruct (evolve c_gen_usize c_gen_f32 c_printable c_shuffle levenshtein (epoch 5 2 pop5) st0) as [e' s'|msg s'] eqn:E;
    [|vm_compute in E; discriminate E].
  exists e', s'. split; [reflexivity|].
  exact (evolve_best c_gen_usize c_gen_f32 c_printable c_shuffle levenshtein c_shuffle_perm _ _ st0 s' E).
Defined.

Lemma mate_spec_witness :
  nonempty (g "HELLO") /\ nonempty (g "abc") /\
  exists k1 k2 s', mate c_gen_usize c_gen_f32 c_printable (g "HELLO") (g "abc") (cfg 5 2) st0
                   = Done [k1; k2] s'
    /\ fitness k1 = None /\ fitness k2 = None
    /\ (length (genes k1) + length (genes k2) = length (genes (g "HELLO")) + length (genes (g "abc")))%nat.
Proof.
  assert (H1 : nonempty (g "HELLO")) by (unfold nonempty; simpl; discriminate).
  assert (H2 : nonempty (g "abc")) by (unfold nonempty; simpl; discriminate).
  exact (conj H1 (conj H2 (mate_spec c_gen_usize c_gen_f32 c_printable _ _ (cfg 5 2) st0 H1 H2))).
Defined.

Lemma evolve_keeps_scores_witness :
  epoch_scores_valid levenshtein (epoch 5 2 pop5) /\
  exists e' s', evolve c_gen_usize c_gen_f32 c_printable c_shuffle levenshtein (epoch 5 2 pop5) st0
                = Done e' s'
    /\ epoch_scores_valid levenshtein e' /\ config e' = config (epoch 5 2 pop5).
Proof.
  assert (Hv : epoch_scores_valid levenshtein (epoch 5 2 pop5)).
  { split; [|intros b Hb; discriminate].
    simpl. unfold pop5. repeat (constructor; [left; reflexivity|]). constructor. }
  split; [exact Hv|].
  destruct (evolve c_gen_usize c_gen_f32 c_printable c_shuffle levenshtein (epoch 5 2 pop5) st0)
    as [e' s'|msg s'] eqn:E; [|vm_compute in E; discriminate E].
  exists e', s'. split; [reflexivity|].
  exact (evolve_keeps_scores c_gen_usize c_gen_f32 c_printable c_shuffle levenshtein c_shuffle_perm
           _ _ st0 s' Hv E).
Defined.
End Witnesses.

End HelloMore.
